(** * Media Hero Catch: media detection and download queue

    A shallow embedding of the parts of the extension that carry its
    behaviour: [src/shared/config.js], [src/content/utils/media-extractor.js],
    [src/content/utils/dom-analyzer.js], the generic and the Instagram
    detector, and [src/background/download-queue.js].

    Conventions of the embedding.
    - A JavaScript string is a [string]: a sequence of code units, here
      restricted to the Latin-1 range (one [ascii] per code unit).
    - A JavaScript Number that is measured or multiplied (pixel sizes,
      scores, bonuses) is a binary64 [float]; indices and counters are
      [nat] or [Z].
    - [null]/[undefined] results are [option]; a thrown [Error] is the
      [inl] of a sum carrying [error.message].
    - What the host provides (document, viewport, URL parser, clock, random
      generator, download transport) is an explicit argument: a field of
      [Document], or a [Transport]. *)

From Stdlib Require Import Floats ZArith String Ascii List Lia Bool DecimalString
  DecimalNat.
From stdpp Require Import base list gmap strings.

#[local] Open Scope string_scope.
#[local] Open Scope list_scope.
#[local] Open Scope Z_scope.

#[local] Unset Default Proof Using.

(* String concatenation on literals is computed by [simpl]. *)
#[local] Arguments String.append !s1 s2 : simpl nomatch.

(* Decimal literals such as 1.3 denote the nearest binary64 value, as in
   JavaScript. *)
#[local] Set Warnings "-inexact-float".

(* ===================================================================== *)
(** ** JavaScript string primitives *)
(* ===================================================================== *)

Module JsString.

(** [s.startsWith(search)] *)
Fixpoint startsWith (s search : string) {struct search} : bool :=
  match search, s with
  | EmptyString, _ => true
  | String c search', String a s' => Ascii.eqb a c && startsWith s' search'
  | String _ _, EmptyString => false
  end.

(** [s.includes(search)]: [search] occurs somewhere in [s]. *)
Fixpoint includes (s search : string) : bool :=
  startsWith s search
  || match s with
     | EmptyString => false
     | String _ s' => includes s' search
     end.

(** [s.length] *)
Definition length (s : string) : Z := Z.of_nat (String.length s).

(** [s.lastIndexOf(c)] for a one-character needle; [-1] when absent. *)
Fixpoint lastIndexOf (s : string) (c : ascii) : Z :=
  match s with
  | EmptyString => -1
  | String a s' =>
      let r := lastIndexOf s' c in
      if 0 <=? r then r + 1
      else if Ascii.eqb a c then 0 else -1
  end.

Fixpoint drop_chars (n : nat) (s : string) : string :=
  match n, s with
  | O, _ => s
  | S _, EmptyString => EmptyString
  | S n', String _ s' => drop_chars n' s'
  end.

Fixpoint take_chars (n : nat) (s : string) : string :=
  match n, s with
  | O, _ => EmptyString
  | S _, EmptyString => EmptyString
  | S n', String c s' => String c (take_chars n' s')
  end.

(** [s.substring(start, end)] for [start <= end]; negative indices clamp
    to 0 and indices past the end clamp to the length. *)
Definition substring (s : string) (i j : Z) : string :=
  take_chars (Z.to_nat j - Z.to_nat i) (drop_chars (Z.to_nat i) s).

(** [s.substring(start)] *)
Definition substringFrom (s : string) (i : Z) : string := drop_chars (Z.to_nat i) s.

(** One code unit of [s.toLowerCase()] in the Latin-1 range: [A-Z] and
    the accented capitals U+00C0..U+00DE (except the multiplication sign
    U+00D7) move up by 32. *)
Definition lower_char (c : ascii) : ascii :=
  let n := nat_of_ascii c in
  if ((65 <=? n) && (n <=? 90))%nat then ascii_of_nat (n + 32)
  else if ((192 <=? n) && (n <=? 222) && negb (n =? 215))%nat
       then ascii_of_nat (n + 32)
  else c.

Fixpoint toLowerCase (s : string) : string :=
  match s with
  | EmptyString => EmptyString
  | String c s' => String (lower_char c) (toLowerCase s')
  end.

(** White space of [/\s/] and of [trim()], in the Latin-1 range:
    TAB, LF, VT, FF, CR, SPACE and NO-BREAK SPACE. *)
Definition is_space (c : ascii) : bool :=
  let n := nat_of_ascii c in
  (((9 <=? n) && (n <=? 13)) || (n =? 32) || (n =? 160))%nat.

Fixpoint trimStart (s : string) : string :=
  match s with
  | EmptyString => EmptyString
  | String c s' => if is_space c then trimStart s' else s
  end.

(** Removes trailing white space: a character is kept when it is not
    white space or when something is kept after it. *)
Fixpoint trimEnd (s : string) : string :=
  match s with
  | EmptyString => EmptyString
  | String c s' =>
      match trimEnd s' with
      | EmptyString => if is_space c then EmptyString else String c EmptyString
      | t => String c t
      end
  end.

(** [s.trim()] *)
Definition trim (s : string) : string := trimEnd (trimStart s).

(** [s.split(sep)] for a one-character separator: the first field and the
    remaining ones. The result is never the empty array. *)
Fixpoint split_char_go (sep : ascii) (s : string) : string * list string :=
  match s with
  | EmptyString => (EmptyString, [])
  | String c s' =>
      let '(t, ts) := split_char_go sep s' in
      if Ascii.eqb c sep then (EmptyString, t :: ts) else (String c t, ts)
  end.

Definition split_char (s : string) (sep : ascii) : list string :=
  let '(t, ts) := split_char_go sep s in t :: ts.

(** [s.split(/\s+/)]: fields separated by maximal runs of white space.
    [in_sep] tells that the previous character belonged to a separator. *)
Fixpoint split_ws_go (in_sep : bool) (s : string) : string * list string :=
  match s with
  | EmptyString => (EmptyString, [])
  | String c s' =>
      if is_space c then
        if in_sep then split_ws_go true s'
        else let '(t, ts) := split_ws_go true s' in (EmptyString, t :: ts)
      else
        let '(t, ts) := split_ws_go false s' in (String c t, ts)
  end.

Definition split_ws (s : string) : list string :=
  let '(t, ts) := split_ws_go false s in t :: ts.

(** [String(n)] of a natural number, in decimal. *)
Definition of_nat (n : nat) : string := NilEmpty.string_of_uint (Nat.to_uint n).

Definition is_digit (c : ascii) : bool :=
  let n := nat_of_ascii c in ((48 <=? n) && (n <=? 57))%nat.

End JsString.

(* ===================================================================== *)
(** ** [src/shared/config.js] *)
(* ===================================================================== *)

Record DetectionConfig := {
  minHeroSize : float;
  iconThreshold : float;
  viewportBonusVisible : float;
  viewportBonusPartial : float;
  qualityBonusHD : float;
  qualityBonusSD : float
}.

Record DownloadsConfig := {
  retryAttempts : nat;
  retryDelays : list Z;
  conflictAction : string
}.

Record InstagramConfig := {
  domain : string;
  maxCarouselItems : nat
}.

Record GenericConfig := {
  excludeClassNames : list string;
  excludeBySize : bool;
  prioritizeVideos : bool
}.

Record Config := {
  detection : DetectionConfig;
  downloads : DownloadsConfig;
  instagram : InstagramConfig;
  generic : GenericConfig
}.

Definition CONFIG : Config := {|
  detection := {|
    minHeroSize := 200;
    iconThreshold := 100;
    viewportBonusVisible := 1.5;
    viewportBonusPartial := 1.2;
    qualityBonusHD := 1.3;
    qualityBonusSD := 1.1
  |};
  downloads := {|
    retryAttempts := 3;
    retryDelays := [2000; 4000; 8000];
    conflictAction := "uniquify"
  |};
  instagram := {|
    domain := "instagram.com";
    maxCarouselItems := 10
  |};
  generic := {|
    excludeClassNames :=
      ["ad"; "advertisement"; "sponsor"; "banner"; "icon"; "avatar";
       "thumbnail-small"; "logo"];
    excludeBySize := true;
    prioritizeVideos := true
  |}
|}.

(* ===================================================================== *)
(** ** The host: document, elements, viewport *)
(* ===================================================================== *)

(** [window.location] *)
Record Location := {
  href : string;
  origin : string;
  protocol : string;
  hostname : string
}.

(** [element.getBoundingClientRect()] *)
Record Rect := {
  rect_top : float;
  rect_left : float;
  rect_bottom : float;
  rect_right : float;
  rect_width : float;
  rect_height : float
}.

(** The properties of [window.getComputedStyle(element)] that are read. *)
Record ComputedStyle := {
  display : string;
  visibility : string;
  opacity : string;
  backgroundImage : string;
  borderRadius : string
}.

(** What [isProfilePicture] reads of an element of the [parentElement]
    chain. *)
Record Ancestor := {
  anc_className : string;
  anc_role : option string;          (* getAttribute('role') *)
  anc_borderRadius : string          (* computed border-radius *)
}.

(** What [instanceof] tells about an element. *)
Inductive ElementInterface :=
| HTMLImageElement
| HTMLVideoElement
| HTMLElement.

(** A DOM element, by the properties the detectors read. [localName] is
    the lower-case tag that selectors match; [tagName] is what
    [element.tagName] returns. *)
Record Element := {
  localName : string;
  tagName : string;
  interface : ElementInterface;
  className : string;
  alt : string;
  srcsetAttr : option string;        (* the srcset attribute, when present *)
  src : string;
  role : option string;
  ariaLabel : option string;
  playsinline : bool;
  sourceChildren : list string;      (* src of the <source> descendants *)
  naturalWidth : float;
  naturalHeight : float;
  videoWidth : float;
  videoHeight : float;
  rect : Rect;
  style : ComputedStyle;
  hasOffsetParent : bool;            (* offsetParent !== null *)
  ancestors : list Ancestor;         (* parentElement chain, nearest first *)
  inArticle : bool                   (* some ancestor is an <article> *)
}.

(** [img.srcset]: the attribute value, or the empty string. *)
Definition srcset (e : Element) : string :=
  match srcsetAttr e with Some s => s | None => "" end.

(** What the clock and the random generator answer during one call of
    [createMediaObject]. *)
Record Stamp := {
  filename_now : Z;                  (* Date.now() inside generateFilename *)
  filename_random : string;          (* Math.random().toString(36) *)
  created_now : Z                    (* Date.now() of the timestamp field *)
}.

(** The page as the content script sees it. [elements] is
    [document.querySelectorAll('*')] in document order; [article] is the
    list of descendants of the first [<article>], in document order, when
    there is one. [URL_pathname url] is [new URL(url, location.href).pathname],
    [None] when the constructor throws. [stamps k] is what the [k]-th
    created media object of a detection pass observes. *)
Record Document := {
  location : Location;
  innerWidth : float;
  innerHeight : float;
  clientWidth : float;
  clientHeight : float;
  elements : list Element;
  article : option (list Element);
  URL_pathname : string -> option string;
  stamps : nat -> Stamp
}.

(** Truthiness of a Number: everything but [0], [-0] and [NaN]. *)
Definition truthy (x : float) : bool :=
  negb (PrimFloat.eqb x 0%float) && PrimFloat.eqb x x.

(** [a || b] on Numbers. *)
Definition or_else (a b : float) : float := if truthy a then a else b.

(** [Array.prototype.sort(compareFn)] read off through
    [after a b := compareFn(a, b) > 0]: a stable insertion sort. An element
    moves behind a later one only when the comparison asks for it, which is
    the order every stable sort yields for a consistent comparison. *)
Fixpoint sort_insert {A} (after : A -> A -> bool) (x : A) (l : list A) : list A :=
  match l with
  | [] => [x]
  | y :: l' => if after x y then y :: sort_insert after x l' else x :: l
  end.

Fixpoint array_sort {A} (after : A -> A -> bool) (l : list A) : list A :=
  match l with
  | [] => []
  | x :: l' => sort_insert after x (array_sort after l')
  end.

(* ===================================================================== *)
(** ** [src/content/utils/media-extractor.js] *)
(* ===================================================================== *)

Module MediaExtractor.
Import JsString.

(** The Number a width descriptor parses to: a non-negative integer that
    binary64 represents, or [+Infinity]. *)
Inductive Num :=
| Finite (z : Z)
| Infinity.

(** The binary64 value nearest to a non-negative integer, ties to even:
    integers below [2^53] are exact, larger ones keep 53 significant bits,
    and what rounds to [2^1024] or more is [+Infinity]. *)
Definition round_binary64 (z : Z) : Num :=
  if z <? 2 ^ 53 then Finite z
  else
    let e := Z.log2 z - 52 in
    let q := z / 2 ^ e in
    let r := z mod 2 ^ e in
    let half := 2 ^ (e - 1) in
    let q' := if r <? half then q
              else if half <? r then q + 1
              else if Z.even q then q else q + 1 in
    let v := q' * 2 ^ e in
    if v <? 2 ^ 1024 then Finite v else Infinity.

Definition digit_value (c : ascii) : Z := Z.of_nat (nat_of_ascii c) - 48.

Fixpoint decimal_value_from (acc : Z) (digits : string) : Z :=
  match digits with
  | EmptyString => acc
  | String c s' => decimal_value_from (10 * acc + digit_value c) s'
  end.

(** The integer a string of decimal digits denotes. *)
Definition decimal_value (digits : string) : Z := decimal_value_from 0 digits.

(** [parseInt(digits, 10)] on a non-empty string of decimal digits: the
    Number nearest to the integer that the digits denote. *)
Definition parseInt (digits : string) : Num := round_binary64 (decimal_value digits).

(** [descriptor.match(/^(\d+)w$/)]: the captured digits, or [None]. *)
Fixpoint match_width (descriptor : string) : option string :=
  match descriptor with
  | EmptyString => None
  | String c rest =>
      if is_digit c then
        if String.eqb rest "w" then Some (String c EmptyString)
        else option_map (String c) (match_width rest)
      else None
  end.

(** [x - y > 0] on such Numbers; [Infinity - Infinity] is [NaN], which is
    not greater than 0. *)
Definition Num_sub_pos (x y : Num) : bool :=
  match x, y with
  | Finite a, Finite b => b <? a
  | Infinity, Finite _ => true
  | Finite _, Infinity => false
  | Infinity, Infinity => false
  end.

(** An entry of a parsed srcset: [{ url, width }]. *)
Record Source := {
  src_url : string;
  src_width : Num
}.

(** The body of the [map] callback of [getHighestResolutionFromSrcset]. *)
Definition parse_source (source : string) : Source :=
  let parts := split_ws (trim source) in
  let url := nth 0 parts "" in
  let descriptor := nth 1 parts "" in
  let widthMatch := match_width descriptor in
  let width := match widthMatch with
               | Some digits => parseInt digits
               | None => Finite 0
               end in
  {| src_url := url; src_width := width |}.

(** [srcset.split(',').map(...)] *)
Definition parse_srcset (srcset : string) : list Source :=
  map parse_source (split_char srcset ",").

(** [compareFn(a, b) > 0] for [(a, b) => b.width - a.width]. *)
Definition width_after (a b : Source) : bool :=
  Num_sub_pos (src_width b) (src_width a).

Definition getHighestResolutionFromSrcset (srcset : string) : option string :=
  if String.eqb srcset "" then None
  else
    let sources := parse_srcset srcset in
    let sorted := array_sort width_after sources in
    match sorted with
    | [] => None
    | s :: _ => if String.eqb (src_url s) "" then None else Some (src_url s)
    end.

Definition makeAbsoluteUrl (loc : Location) (url : string) : string :=
  if String.eqb url "" then url
  else if startsWith url "http://" || startsWith url "https://" then url
  else if startsWith url "//" then protocol loc +:+ url
  else if startsWith url "/" then origin loc +:+ url
  else
    let base := substring (href loc) 0 (lastIndexOf (href loc) "/" + 1) in
    base +:+ url.

Definition extractImageUrl (loc : Location) (img : Element) : option string :=
  match (if String.eqb (srcset img) "" then None
         else getHighestResolutionFromSrcset (srcset img)) with
  | Some highestResUrl => Some (makeAbsoluteUrl loc highestResUrl)
  | None =>
      if String.eqb (src img) "" then None
      else Some (makeAbsoluteUrl loc (src img))
  end.

Definition extractVideoUrl (loc : Location) (video : Element) : option string :=
  if negb (String.eqb (src video) "") then Some (makeAbsoluteUrl loc (src video))
  else
    match sourceChildren video with
    | firstSource :: _ =>
        if negb (String.eqb firstSource "")
        then Some (makeAbsoluteUrl loc firstSource)
        else None
    | [] => None
    end.

Definition guessExtensionFromUrl (url : string) : string :=
  if String.eqb url "" then "jpg"
  else
    let lowercaseUrl := toLowerCase url in
    if includes lowercaseUrl ".png" then "png"
    else if includes lowercaseUrl ".gif" then "gif"
    else if includes lowercaseUrl ".webp" then "webp"
    else if includes lowercaseUrl ".svg" then "svg"
    else if includes lowercaseUrl ".bmp" then "bmp"
    else if includes lowercaseUrl ".mp4" then "mp4"
    else if includes lowercaseUrl ".webm" then "webm"
    else if includes lowercaseUrl ".mov" then "mov"
    else if includes lowercaseUrl ".avi" then "avi"
    else "jpg".

(** [timestamp] is [Date.now()], [random36] is
    [Math.random().toString(36)]. *)
Definition generateFilename (timestamp : Z) (random36 : string) (url : string)
  : string :=
  let random := substring random36 2 6 in
  let extension := guessExtensionFromUrl url in
  "media_" +:+ NilEmpty.string_of_int (Z.to_int timestamp) +:+ "_" +:+ random
    +:+ "." +:+ extension.

Definition extractFilenameFromUrl (doc : Document) (st : Stamp) (url : string)
  : string :=
  if String.eqb url "" then "media"
  else
    match URL_pathname doc url with
    | Some pathname =>
        let filename := substringFrom pathname (lastIndexOf pathname "/" + 1) in
        if negb (String.eqb filename "") && includes filename "."
        then filename
        else generateFilename (filename_now st) (filename_random st) url
    | None => generateFilename (filename_now st) (filename_random st) url
    end.

(** A media object. [mo_position] and [mo_totalItems] are the two
    properties that only the carousel numbering adds. *)
Record MediaObject := {
  mo_url : string;
  mo_filename : string;
  mo_type : string;
  mo_score : float;
  mo_element : string;
  mo_timestamp : Z;
  mo_position : option nat;
  mo_totalItems : option nat
}.

Definition createMediaObject (doc : Document) (st : Stamp)
    (url type : string) (element : Element) (score : float) : MediaObject :=
  {| mo_url := makeAbsoluteUrl (location doc) url;
     mo_filename := extractFilenameFromUrl doc st url;
     mo_type := type;
     mo_score := score;
     mo_element := toLowerCase (tagName element);
     mo_timestamp := created_now st;
     mo_position := None;
     mo_totalItems := None |}.

Definition isValidMediaUrl (url : string) : bool :=
  if String.eqb url "" then false
  else if negb (startsWith url "http://") && negb (startsWith url "https://")
  then false
  else if startsWith url "data:" then false
  else if JsString.length url >? 2048 then false
  else true.

End MediaExtractor.

(* ===================================================================== *)
(** ** [src/content/utils/dom-analyzer.js] *)
(* ===================================================================== *)

Module DomAnalyzer.
Import JsString.
#[local] Open Scope float_scope.

(** [{ width, height, area }] *)
Record Size := {
  size_width : float;
  size_height : float;
  size_area : float
}.

Definition calculateElementSize (element : Element) : Size :=
  let natural :=
    match interface element with
    | HTMLImageElement =>
        let naturalWidth := or_else (naturalWidth element) 0 in
        let naturalHeight := or_else (naturalHeight element) 0 in
        if (0 <? naturalWidth) && (0 <? naturalHeight)
        then Some {| size_width := naturalWidth;
                     size_height := naturalHeight;
                     size_area := naturalWidth * naturalHeight |}
        else None
    | HTMLVideoElement =>
        let videoWidth := or_else (videoWidth element) 0 in
        let videoHeight := or_else (videoHeight element) 0 in
        if (0 <? videoWidth) && (0 <? videoHeight)
        then Some {| size_width := videoWidth;
                     size_height := videoHeight;
                     size_area := videoWidth * videoHeight |}
        else None
    | HTMLElement => None
    end in
  match natural with
  | Some size => size
  | None =>
      let rect := rect element in
      {| size_width := rect_width rect;
         size_height := rect_height rect;
         size_area := rect_width rect * rect_height rect |}
  end.

(** ['fully'], ['partially'], ['none'] *)
Inductive Visibility :=
| fully
| partially
| none.

Definition getViewportVisibility (doc : Document) (element : Element) : Visibility :=
  let rect := rect element in
  let windowHeight := or_else (innerHeight doc) (clientHeight doc) in
  let windowWidth := or_else (innerWidth doc) (clientWidth doc) in
  if (rect_bottom rect <? 0) || (windowHeight <? rect_top rect)
     || (rect_right rect <? 0) || (windowWidth <? rect_left rect)
  then none
  else
    let fullyVisible :=
      (0 <=? rect_top rect) && (0 <=? rect_left rect)
      && (rect_bottom rect <=? windowHeight)
      && (rect_right rect <=? windowWidth) in
    if fullyVisible then fully else partially.

Definition calculateViewportBonus (doc : Document) (element : Element) : float :=
  match getViewportVisibility doc element with
  | fully => viewportBonusVisible (detection CONFIG)
  | partially => viewportBonusPartial (detection CONFIG)
  | none => 1.0
  end.

Definition calculateQualityBonus (width : float) : float :=
  if 1920 <? width then qualityBonusHD (detection CONFIG)
  else if 1280 <? width then qualityBonusSD (detection CONFIG)
  else 1.0.

Definition shouldExcludeByClassName (element : Element) : bool :=
  let classStr := toLowerCase (className element) in
  existsb (fun excludeClass => includes classStr excludeClass)
          (excludeClassNames (generic CONFIG)).

Definition isTooSmall (size : Size) : bool :=
  (size_width size <? minHeroSize (detection CONFIG))
  || (size_height size <? minHeroSize (detection CONFIG)).

Definition isIcon (size : Size) : bool :=
  (size_width size <? iconThreshold (detection CONFIG))
  || (size_height size <? iconThreshold (detection CONFIG)).

Definition isElementVisible (element : Element) : bool :=
  negb (String.eqb (display (style element)) "none")
  && negb (String.eqb (visibility (style element)) "hidden")
  && negb (String.eqb (opacity (style element)) "0")
  && hasOffsetParent element.

Definition getAllImages (doc : Document) : list Element :=
  List.filter (fun e => String.eqb (localName e) "img") (elements doc).

Definition getAllVideos (doc : Document) : list Element :=
  List.filter (fun e => String.eqb (localName e) "video") (elements doc).

Definition hasBackgroundImage (element : Element) : bool :=
  let backgroundImage := backgroundImage (style element) in
  negb (String.eqb backgroundImage "") && negb (String.eqb backgroundImage "none").

Definition getElementsWithBackgroundImages (doc : Document) : list Element :=
  List.filter hasBackgroundImage (elements doc).

(** The single quote (code 39) and the double quote (code 34). *)
Definition is_quote (c : ascii) : bool :=
  let n := nat_of_ascii c in ((n =? 39) || (n =? 34))%nat.

(** The end of the pattern at the start of [s]: an optional quote, then a
    closing parenthesis. *)
Definition match_close (s : string) : bool :=
  match s with
  | String c s' =>
      if is_quote c
      then match s' with String ")" _ => true | _ => false end
      else Ascii.eqb c ")"
  | EmptyString => false
  end.

(** The captured group at the start of [s]: one or more characters that
    are not quotes, followed by the end of the pattern. The group is
    greedy, so the longest run after which the end matches wins. *)
Fixpoint match_group (s : string) : option string :=
  match s with
  | EmptyString => None
  | String c s' =>
      if is_quote c then None
      else
        match match_group s' with
        | Some g => Some (String c g)
        | None => if match_close s' then Some (String c EmptyString) else None
        end
  end.

(** The pattern right after [url(]: an optional quote, then the group. *)
Definition match_after_open (s : string) : option string :=
  match s with
  | String c s' => if is_quote c then match_group s' else match_group s
  | EmptyString => None
  end.

(** Group 1 of the leftmost match of the background-image pattern:
    [url(], an optional quote, the group, an optional quote, [)]. *)
Fixpoint match_url (s : string) : option string :=
  match (if startsWith s "url(" then match_after_open (drop_chars 4 s) else None) with
  | Some g => Some g
  | None =>
      match s with
      | EmptyString => None
      | String _ s' => match_url s'
      end
  end.

Definition extractBackgroundImageUrl (element : Element) : option string :=
  if hasBackgroundImage element
  then match_url (backgroundImage (style element))
  else None.

Definition filterElements (elements : list Element) : list Element :=
  List.filter
    (fun element =>
       if negb (isElementVisible element) then false
       else
         let size := calculateElementSize element in
         if isTooSmall size then false
         else if excludeBySize (generic CONFIG) && isIcon size then false
         else if shouldExcludeByClassName element then false
         else true)
    elements.

End DomAnalyzer.

(* ===================================================================== *)
(** ** The generic detector *)
(* ===================================================================== *)

Module GenericDetector.
Import JsString MediaExtractor DomAnalyzer.
#[local] Open Scope float_scope.

(** [{ element, size, score }] *)
Record Scored := {
  sc_element : Element;
  sc_size : Size;
  sc_score : float
}.

(** The body of the scoring [map] callback, the same in the three stages. *)
Definition score_element (doc : Document) (element : Element) : Scored :=
  let size := calculateElementSize element in
  let viewportBonus := calculateViewportBonus doc element in
  let qualityBonus := calculateQualityBonus (size_width size) in
  let score := size_area size * viewportBonus * qualityBonus in
  {| sc_element := element; sc_size := size; sc_score := score |}.

(** [compareFn(a, b) > 0] for [(a, b) => b.score - a.score]. *)
Definition score_after (a b : Scored) : bool :=
  0 <? sc_score b - sc_score a.

(** The frame shared by the three stages: filter, score, sort, take the
    winner, extract and validate its URL, build the media object. *)
Definition detect_stage (doc : Document) (candidates : list Element)
    (extract : Element -> option string) (type : string) : option MediaObject :=
  match candidates with
  | [] => None
  | _ =>
      let valid := filterElements candidates in
      match valid with
      | [] => None
      | _ =>
          let scored := map (score_element doc) valid in
          let sorted := array_sort score_after scored in
          match sorted with
          | [] => None
          | winner :: _ =>
              match extract (sc_element winner) with
              | Some url =>
                  if negb (String.eqb url "") && isValidMediaUrl url
                  then Some (createMediaObject doc (stamps doc 0%nat) url type
                               (sc_element winner) (sc_score winner))
                  else None
              | None => None
              end
          end
      end
  end.

Definition detectHeroVideo (doc : Document) : option MediaObject :=
  detect_stage doc (getAllVideos doc) (extractVideoUrl (location doc)) "video".

Definition detectHeroImage (doc : Document) : option MediaObject :=
  detect_stage doc (getAllImages doc) (extractImageUrl (location doc)) "image".

Definition detectHeroBackgroundImage (doc : Document) : option MediaObject :=
  detect_stage doc (getElementsWithBackgroundImages doc)
    extractBackgroundImageUrl "image".

Definition detectHeroMedia (doc : Document) : list MediaObject :=
  match (if prioritizeVideos (generic CONFIG) then detectHeroVideo doc else None) with
  | Some heroVideo => [heroVideo]
  | None =>
      match detectHeroImage doc with
      | Some heroImage => [heroImage]
      | None =>
          match detectHeroBackgroundImage doc with
          | Some heroBackgroundImage => [heroBackgroundImage]
          | None => []
          end
      end
  end.

End GenericDetector.

(* ===================================================================== *)
(** ** The Instagram detector *)
(* ===================================================================== *)

Module InstagramDetector.
Import JsString MediaExtractor.
#[local] Open Scope float_scope.

(** ['carousel'], ['video'], ['reel'], ['image'], ['unknown'] *)
Inductive PostType :=
| PostCarousel
| PostVideo
| PostReel
| PostImage
| PostUnknown.

Definition aria_label_includes (text : string) (e : Element) : bool :=
  match ariaLabel e with
  | Some label => includes label text
  | None => false
  end.

Definition hasCarouselIndicators (doc : Document) : bool :=
  let is_button e := String.eqb (localName e) "button" in
  let nextButton :=
    existsb (fun e => is_button e
                      && (aria_label_includes "Next" e || aria_label_includes "next" e))
            (elements doc) in
  let prevButton :=
    existsb (fun e => is_button e
                      && (aria_label_includes "Previous" e
                          || aria_label_includes "previous" e))
            (elements doc) in
  let carouselDots :=
    existsb (fun e => match role e with
                      | Some r => String.eqb r "tablist"
                      | None => false
                      end)
            (elements doc) in
  nextButton || prevButton || carouselDots.

Definition is_video (e : Element) : bool := String.eqb (localName e) "video".

(** Matches the selector [img[srcset]]. *)
Definition is_img_with_srcset (e : Element) : bool :=
  String.eqb (localName e) "img"
  && match srcsetAttr e with Some _ => true | None => false end.

Definition detectPostType (doc : Document) : PostType :=
  let url := href (location doc) in
  if includes url "/reel/" || includes url "/reels/" then PostReel
  else if hasCarouselIndicators doc then PostCarousel
  else if existsb (fun e => is_video e && inArticle e) (elements doc) then PostVideo
  else if existsb (fun e => is_img_with_srcset e && inArticle e) (elements doc)
  then PostImage
  else PostUnknown.

(** The [while (parent && depth < 5)] walk of [isProfilePicture] over the
    [parentElement] chain; [fuel] is [5 - depth]. *)
Fixpoint profile_ancestor (fuel : nat) (parents : list Ancestor) : bool :=
  match fuel, parents with
  | S fuel', parent :: rest =>
      let parentClass := toLowerCase (anc_className parent) in
      let parentRole :=
        toLowerCase (match anc_role parent with Some r => r | None => "" end) in
      if includes parentClass "profile" || includes parentRole "profile" then true
      else if String.eqb (anc_borderRadius parent) "50%" then true
      else profile_ancestor fuel' rest
  | _, _ => false
  end.

Definition isProfilePicture (img : Element) : bool :=
  let alt := toLowerCase (alt img) in
  if includes alt "profile picture" || includes alt "'s profile picture" then true
  else if profile_ancestor 5 (ancestors img) then true
  else
    let rect := rect img in
    if (rect_width rect <? 150) && (rect_height rect <? 150)
       && (PrimFloat.abs (rect_width rect - rect_height rect) <? 10)
    then true
    else false.

Definition uiKeywords : list string :=
  ["icon"; "logo"; "emoji"; "sticker"; "badge"; "verified"].

Definition isUIElement (img : Element) : bool :=
  let alt := toLowerCase (alt img) in
  let className := toLowerCase (className img) in
  if existsb (fun keyword => includes alt keyword || includes className keyword)
             uiKeywords
  then true
  else
    let rect := rect img in
    if (rect_width rect <? 50) || (rect_height rect <? 50) then true else false.

Definition addPositionToFilename (filename : string) (position total : nat)
  : string :=
  if (total =? 1)%nat then filename
  else
    let lastDotIndex := lastIndexOf filename "." in
    if (lastDotIndex =? -1)%Z then filename +:+ "_" +:+ of_nat position
    else
      let name := substring filename 0 lastDotIndex in
      let extension := substringFrom filename lastDotIndex in
      name +:+ "_" +:+ of_nat position +:+ extension.

(** The state of the two collecting loops of [detectCarousel]: the [Set]
    of URLs seen by the running loop and [mediaList]. *)
Definition Collect : Type := gset string * list MediaObject.

(** One iteration of the loop over [img[srcset]] elements. *)
Definition collect_image (doc : Document) (acc : Collect) (img : Element) : Collect :=
  let '(uniqueImageUrls, mediaList) := acc in
  if isProfilePicture img || isUIElement img then acc
  else
    match extractImageUrl (location doc) img with
    | Some url =>
        if negb (String.eqb url "") && isValidMediaUrl url
           && negb (bool_decide (url ∈ uniqueImageUrls))
        then
          let mediaObj :=
            createMediaObject doc (stamps doc (List.length mediaList))
              url "image" img 0 in
          ({[ url ]} ∪ uniqueImageUrls, mediaList ++ [mediaObj])
        else acc
    | None => acc
    end.

(** One iteration of the loop over [video] elements. *)
Definition collect_video (doc : Document) (acc : Collect) (video : Element) : Collect :=
  let '(uniqueVideoUrls, mediaList) := acc in
  match extractVideoUrl (location doc) video with
  | Some url =>
      if negb (String.eqb url "") && isValidMediaUrl url
         && negb (bool_decide (url ∈ uniqueVideoUrls))
      then
        let mediaObj :=
          createMediaObject doc (stamps doc (List.length mediaList))
            url "video" video 0 in
        ({[ url ]} ∪ uniqueVideoUrls, mediaList ++ [mediaObj])
      else acc
  | None => acc
  end.

(** [mediaList] when both loops are done. *)
Definition carousel_mediaList (doc : Document) (article : list Element)
  : list MediaObject :=
  let images := List.filter is_img_with_srcset article in
  let '(_, mediaList) := fold_left (collect_image doc) images (∅, []) in
  let videos := List.filter is_video article in
  let '(_, mediaList) := fold_left (collect_video doc) videos (∅, mediaList) in
  mediaList.

(** [mediaList.slice(0, CONFIG.instagram.maxCarouselItems)] *)
Definition carousel_limited (doc : Document) (article : list Element)
  : list MediaObject :=
  take (maxCarouselItems (instagram CONFIG)) (carousel_mediaList doc article).

(** The callback of the final [map]: the spread copy with a new filename
    and the two numbering properties. *)
Definition number_item (total : nat) (index : nat) (media : MediaObject)
  : MediaObject :=
  {| mo_url := mo_url media;
     mo_filename := addPositionToFilename (mo_filename media) (index + 1) total;
     mo_type := mo_type media;
     mo_score := mo_score media;
     mo_element := mo_element media;
     mo_timestamp := mo_timestamp media;
     mo_position := Some (index + 1)%nat;
     mo_totalItems := Some total |}.

Definition detectCarousel (doc : Document) : list MediaObject :=
  match article doc with
  | None => []
  | Some article =>
      let limited := carousel_limited doc article in
      imap (number_item (List.length limited)) limited
  end.

Definition detectVideo (doc : Document) : list MediaObject :=
  match article doc with
  | None => []
  | Some article =>
      match List.filter is_video article with
      | [] => []
      | video :: _ =>
          match extractVideoUrl (location doc) video with
          | Some url =>
              if negb (String.eqb url "") && isValidMediaUrl url
              then [createMediaObject doc (stamps doc 0%nat) url "video" video 0]
              else []
          | None => []
          end
      end
  end.

Definition detectReel (doc : Document) : list MediaObject :=
  match List.filter (fun e => is_video e && playsinline e) (elements doc) with
  | [] => []
  | video :: _ =>
      match extractVideoUrl (location doc) video with
      | Some url =>
          if negb (String.eqb url "") && isValidMediaUrl url
          then [createMediaObject doc (stamps doc 0%nat) url "video" video 0]
          else []
      | None => []
      end
  end.

(** The loop of [detectImage]: the first image that passes the filters
    and has a valid URL. *)
Fixpoint first_image (doc : Document) (images : list Element) : list MediaObject :=
  match images with
  | [] => []
  | img :: rest =>
      if isProfilePicture img || isUIElement img then first_image doc rest
      else
        match extractImageUrl (location doc) img with
        | Some url =>
            if negb (String.eqb url "") && isValidMediaUrl url
            then [createMediaObject doc (stamps doc 0%nat) url "image" img 0]
            else first_image doc rest
        | None => first_image doc rest
        end
  end.

Definition detectImage (doc : Document) : list MediaObject :=
  match article doc with
  | None => []
  | Some article => first_image doc (List.filter is_img_with_srcset article)
  end.

Definition detectHeroMedia (doc : Document) : list MediaObject :=
  match detectPostType doc with
  | PostCarousel => detectCarousel doc
  | PostVideo => detectVideo doc
  | PostReel => detectReel doc
  | PostImage => detectImage doc
  | PostUnknown => []
  end.

End InstagramDetector.

(* ===================================================================== *)
(** ** [src/background/download-queue.js] *)
(* ===================================================================== *)

Module DownloadQueue.
Import MediaExtractor.

(** ['pending'], ['downloading'], ['completed'], ['failed'] *)
Inductive Status :=
| pending
| downloading
| completed
| failed.

(** [{ media, sourceUrl, retryCount, status }] *)
Record QueueItem := {
  qi_media : MediaObject;
  qi_sourceUrl : string;
  qi_retryCount : nat;
  qi_status : Status
}.

(** [{ media, status: 'completed', downloadId }] or
    [{ media, status: 'failed', error }] *)
Record DownloadResult := {
  res_media : MediaObject;
  res_status : Status;
  res_downloadId : option Z;
  res_error : option string
}.

(** The fields of a [DownloadQueue] instance. *)
Record State := {
  queue : list QueueItem;
  isProcessing : bool;
  currentDownload : option QueueItem;
  results : list DownloadResult
}.

(** The argument of [browserAPI.downloads.download]. *)
Record DownloadOptions := {
  opt_url : string;
  opt_filename : string;
  opt_conflictAction : string;
  opt_saveAs : bool
}.

(** How the wait for one transfer ends: the [onChanged] listener sees the
    transfer complete, or sees an error for it, or the 60 second timer
    fires first. *)
Inductive Terminal :=
| Complete
| ErrorEvent (error : string)
| TimedOut.

(** The download transport: a machine with a state of its own.
    [download opts] answers with a transfer id ([inr]) or rejects with an
    error message ([inl]); [terminal id] tells how the wait for transfer
    [id] ends. *)
Record Transport := {
  T : Type;
  download : DownloadOptions -> T -> (string + Z) * T;
  terminal : Z -> T -> Terminal * T
}.

(** What the queue asks of the host, in order. *)
Inductive Event :=
| Requested (opts : DownloadOptions)     (* browserAPI.downloads.download *)
| Listened (downloadId : Z)              (* onChanged.addListener + timer *)
| Slept (ms : Z).                        (* sleep *)

(** The host during a run: the transport and the calls made so far. *)
Record World (tr : Transport) := {
  transport : T tr;
  log : list Event
}.
Arguments transport {tr} _.
Arguments log {tr} _.

(** The transfer requests among some events. *)
Definition requests (evs : list Event) : list DownloadOptions :=
  omap (fun ev => match ev with Requested opts => Some opts | _ => None end) evs.

Definition constructor : State :=
  {| queue := []; isProcessing := false; currentDownload := None; results := [] |}.

Definition add (mediaItems : list MediaObject) (sourceUrl : string) (this : State)
  : State :=
  {| queue := queue this
              ++ map (fun media => {| qi_media := media;
                                      qi_sourceUrl := sourceUrl;
                                      qi_retryCount := 0;
                                      qi_status := pending |}) mediaItems;
     isProcessing := isProcessing this;
     currentDownload := currentDownload this;
     results := results this |}.

Section WithTransport.
Variable tr : Transport.

Definition sleep (ms : Z) (w : World tr) : World tr :=
  {| transport := transport w; log := log w ++ [Slept ms] |}.

Definition downloadFile (url filename : string) (w : World tr)
  : (string + Z) * World tr :=
  let opts := {| opt_url := url;
                 opt_filename := filename;
                 opt_conflictAction := conflictAction (downloads CONFIG);
                 opt_saveAs := false |} in
  let '(answer, t) := download tr opts (transport w) in
  let w' := {| transport := t; log := log w ++ [Requested opts] |} in
  match answer with
  | inr downloadId => (inr downloadId, w')
  | inl message => (inl ("Failed to start download: " +:+ message), w')
  end.

Definition waitForDownload (downloadId : Z) (w : World tr)
  : (string + bool) * World tr :=
  let '(outcome, t) := terminal tr downloadId (transport w) in
  let w' := {| transport := t; log := log w ++ [Listened downloadId] |} in
  match outcome with
  | Complete => (inr true, w')
  | ErrorEvent error => (inl error, w')
  | TimedOut => (inl "Download timeout", w')
  end.

Definition with_attempt (attempt : nat) (item : QueueItem) : QueueItem :=
  {| qi_media := qi_media item; qi_sourceUrl := qi_sourceUrl item;
     qi_retryCount := attempt; qi_status := downloading |}.

Definition with_status (status : Status) (item : QueueItem) : QueueItem :=
  {| qi_media := qi_media item; qi_sourceUrl := qi_sourceUrl item;
     qi_retryCount := qi_retryCount item; qi_status := status |}.

(** The [try] block of one attempt. *)
Definition attempt_once (item : QueueItem) (w : World tr)
  : (string + DownloadResult) * QueueItem * World tr :=
  let media := qi_media item in
  let '(started, w) := downloadFile (mo_url media) (mo_filename media) w in
  match started with
  | inl error => (inl error, item, w)
  | inr downloadId =>
      let '(waited, w) := waitForDownload downloadId w in
      match waited with
      | inl error => (inl error, item, w)
      | inr success =>
          if success then
            (inr {| res_media := media; res_status := completed;
                    res_downloadId := Some downloadId; res_error := None |},
             with_status completed item, w)
          else (inl "Download did not complete successfully", item, w)
      end
  end.

(** [CONFIG.downloads.retryDelays[attempt] || 2000] *)
Definition retry_delay (attempt : nat) : Z :=
  match nth_error (retryDelays (downloads CONFIG)) attempt with
  | Some delay => if (delay =? 0)%Z then 2000 else delay
  | None => 2000
  end.

(** The [for] loop of [downloadWithRetry] from [attempt] on;
    [remaining] is [maxRetries - attempt], so that
    [attempt < maxRetries] reads [remaining > 0]. The item is mutated
    in place, hence returned. *)
Fixpoint retry_loop (remaining attempt : nat) (item : QueueItem) (w : World tr)
  : (string + DownloadResult) * QueueItem * World tr :=
  let item := with_attempt attempt item in
  let '(outcome, item, w) := attempt_once item w in
  match outcome with
  | inr result => (inr result, item, w)
  | inl error =>
      match remaining with
      | S remaining' =>
          let delay := retry_delay attempt in
          let w := sleep delay w in
          retry_loop remaining' (S attempt) item w
      | O => (inl error, item, w)
      end
  end.

Definition downloadWithRetry (item : QueueItem) (w : World tr)
  : (string + DownloadResult) * QueueItem * World tr :=
  let maxRetries := retryAttempts (downloads CONFIG) in
  retry_loop maxRetries 0 item w.

(** The first two statements of a turn of the [while] loop of [process]:
    the [shift] leaves [rest] in [this.queue] and the item becomes the
    current download. This is the instance as long as the download of the
    item is awaited. *)
Definition take_item (item : QueueItem) (rest : list QueueItem) (this : State)
  : State :=
  {| queue := rest; isProcessing := isProcessing this;
     currentDownload := Some item; results := results this |}.

(** One turn of the [while] loop of [process]: the item is taken, its
    result is pushed, and the current download is reset. *)
Definition process_item (item : QueueItem) (rest : list QueueItem)
    (this : State) (w : World tr) : State * World tr :=
  let this := take_item item rest this in
  let '(outcome, _, w) := downloadWithRetry item w in
  let result :=
    match outcome with
    | inr result => result
    | inl error => {| res_media := qi_media item; res_status := failed;
                      res_downloadId := None; res_error := Some error |}
    end in
  ({| queue := queue this;
      isProcessing := isProcessing this;
      currentDownload := None;
      results := results this ++ [result] |}, w).

(** The [while (this.queue.length > 0)] loop over the pending items. *)
Fixpoint process_loop (pending_items : list QueueItem) (this : State)
    (w : World tr) : State * World tr :=
  match pending_items with
  | [] => (this, w)
  | item :: rest =>
      let '(this, w) := process_item item rest this w in
      process_loop rest this w
  end.

(** The statements of [process] in front of its loop: the guard, which
    throws, and the assignments to [isProcessing] and [results]. *)
Definition process_enter (this : State) : string + State :=
  if isProcessing this
  then inl "Queue is already being processed"
  else inr {| queue := queue this; isProcessing := true;
              currentDownload := currentDownload this; results := [] |}.

Definition process (this : State) (w : World tr)
  : (string + list DownloadResult) * State * World tr :=
  match process_enter this with
  | inl error => (inl error, this, w)
  | inr this =>
      let '(this, w) := process_loop (queue this) this w in
      let this := {| queue := queue this; isProcessing := false;
                     currentDownload := currentDownload this;
                     results := results this |} in
      (inr (results this), this, w)
  end.

End WithTransport.

(** [{ isProcessing, queueLength, currentDownload, completedCount,
    failedCount }] *)
Record QueueStatus := {
  st_isProcessing : bool;
  st_queueLength : nat;
  st_currentDownload : option QueueItem;
  st_completedCount : nat;
  st_failedCount : nat
}.

Definition is_completed (r : DownloadResult) : bool :=
  match res_status r with completed => true | _ => false end.

Definition is_failed (r : DownloadResult) : bool :=
  match res_status r with failed => true | _ => false end.

Definition getStatus (this : State) : QueueStatus :=
  {| st_isProcessing := isProcessing this;
     st_queueLength := List.length (queue this);
     st_currentDownload := currentDownload this;
     st_completedCount := List.length (List.filter is_completed (results this));
     st_failedCount := List.length (List.filter is_failed (results this)) |}.

Definition clear (this : State) : State :=
  {| queue := []; results := []; currentDownload := None; isProcessing := false |}.

End DownloadQueue.

(* ===================================================================== *)
(** ** Reference definitions used to state the properties *)
(* ===================================================================== *)

Module Reference.
Import JsString MediaExtractor.

(** The extensions [guessExtensionFromUrl] knows, in the order it tests
    them. *)
Definition knownExtensions : list string :=
  ["png"; "gif"; "webp"; "svg"; "bmp"; "mp4"; "webm"; "mov"; "avi"].

(** The first known extension that occurs, with its dot, somewhere in the
    lower-cased URL; [jpg] when none does. *)
Definition extension_by_priority (lowercaseUrl : string) : string :=
  match List.find (fun ext => includes lowercaseUrl ("." +:+ ext)) knownExtensions with
  | Some ext => ext
  | None => "jpg"
  end.

(** A string of decimal digits. *)
Fixpoint all_digits (s : string) : bool :=
  match s with
  | EmptyString => true
  | String c s' => is_digit c && all_digits s'
  end.

(** The URL and the descriptor of the piece of a srcset between two
    commas: what comes before and after the first run of white space. *)
Definition entry_url (source : string) : string :=
  nth 0 (split_ws (trim source)) "".

Definition entry_descriptor (source : string) : string :=
  nth 1 (split_ws (trim source)) "".

(** The digits of a width descriptor: what stands in front of its last
    character when that character is w and what stands in front is a
    non-empty string of decimal digits. *)
Definition descriptor_digits (descriptor : string) : option string :=
  let n := String.length descriptor in
  let digits := take_chars (n - 1) descriptor in
  if String.eqb (drop_chars (n - 1) descriptor) "w"
     && negb (String.eqb digits "") && all_digits digits
  then Some digits
  else None.

(** The value of a decimal digit. *)
Definition digit (c : ascii) : Z :=
  if Ascii.eqb c "0" then 0 else if Ascii.eqb c "1" then 1
  else if Ascii.eqb c "2" then 2 else if Ascii.eqb c "3" then 3
  else if Ascii.eqb c "4" then 4 else if Ascii.eqb c "5" then 5
  else if Ascii.eqb c "6" then 6 else if Ascii.eqb c "7" then 7
  else if Ascii.eqb c "8" then 8 else if Ascii.eqb c "9" then 9
  else 0.

(** The integer that a string of decimal digits spells: each digit
    counts for its value times the power of ten of its place. *)
Fixpoint spelled (digits : string) : Z :=
  match digits with
  | EmptyString => 0
  | String c rest => digit c * 10 ^ Z.of_nat (String.length rest) + spelled rest
  end.

(** The width an entry declares: the integer its descriptor spells when
    the descriptor is digits followed by w, and 0 otherwise. *)
Definition declared_width (source : string) : Z :=
  match descriptor_digits (entry_descriptor source) with
  | Some digits => spelled digits
  | None => 0
  end.

(** The order of the Numbers that widths are. *)
Definition Num_lt (x y : Num) : Prop :=
  match x, y with
  | Finite a, Finite b => a < b
  | Finite _, Infinity => True
  | Infinity, _ => False
  end.

(** The width of an entry as the Number the code compares. *)
Definition number_width (source : string) : Num :=
  round_binary64 (declared_width source).

(** The URL has the http or the https scheme. *)
Definition is_http (url : string) : bool :=
  startsWith url "http://" || startsWith url "https://".

(** The document is an http or https page. *)
Definition http_location (loc : Location) : Prop :=
  (protocol loc = "http:" \/ protocol loc = "https:")
  /\ startsWith (origin loc) (protocol loc +:+ "//") = true
  /\ startsWith (href loc) (protocol loc +:+ "//") = true.

(** A page opened from the local file system. *)
Definition file_location : Location :=
  {| href := "file:///home/user/page.html";
     origin := "null";
     protocol := "file:";
     hostname := "" |}.

(** The page of the unit tests. *)
Definition example_location : Location :=
  {| href := "https://example.com/page/article.html";
     origin := "https://example.com";
     protocol := "https:";
     hostname := "example.com" |}.

(** The resolved URL of an image that the carousel loop accepts: the
    image is neither a profile picture nor a UI element and its URL is
    valid. *)
Definition qualifying_image_url (doc : Document) (img : Element) : option string :=
  if InstagramDetector.isProfilePicture img || InstagramDetector.isUIElement img
  then None
  else
    match extractImageUrl (location doc) img with
    | Some url => if isValidMediaUrl url then Some url else None
    | None => None
    end.

(** The resolved URL of a video that the carousel loop accepts. *)
Definition qualifying_video_url (doc : Document) (video : Element) : option string :=
  match extractVideoUrl (location doc) video with
  | Some url => if isValidMediaUrl url then Some url else None
  | None => None
  end.

(** The resolved URLs of the qualifying images with a srcset, and of the
    qualifying videos, of a post container, each in document order. *)
Definition image_urls (doc : Document) (article : list Element) : list string :=
  omap (qualifying_image_url doc)
       (List.filter InstagramDetector.is_img_with_srcset article).

Definition video_urls (doc : Document) (article : list Element) : list string :=
  omap (qualifying_video_url doc) (List.filter InstagramDetector.is_video article).

(** A media object that a carousel loop makes for the valid URL [url]. *)
Definition made_for (doc : Document) (type : string) (m : MediaObject)
    (url : string) : Prop :=
  exists st e,
    isValidMediaUrl url = true
    /\ m = createMediaObject doc st url type e 0%float.

(** A list without its repetitions: of equal strings the first stays. *)
Fixpoint keep_first (l : list string) : list string :=
  match l with
  | [] => []
  | x :: l' => x :: List.filter (fun y => negb (String.eqb y x)) (keep_first l')
  end.

(** The number of distinct strings of a list. *)
Definition distinct (l : list string) : nat := size (list_to_set l : gset string).

(** The resolved URLs of all the entries of a post container that the
    carousel loops accept. *)
Definition carousel_urls_of (doc : Document) (article : list Element) : list string :=
  image_urls doc article ++ video_urls doc article.

(** *** An example page *)

Definition rect_at (left top width height : float) : Rect :=
  {| rect_top := top; rect_left := left;
     rect_bottom := (top + height)%float; rect_right := (left + width)%float;
     rect_width := width; rect_height := height |}.

Definition plain_style : ComputedStyle :=
  {| display := "block"; visibility := "visible"; opacity := "1";
     backgroundImage := "none"; borderRadius := "0px" |}.

Definition example_img (srcsetAttr : option string) (src : string)
    (naturalWidth naturalHeight : float) (rect : Rect) : Element :=
  {| localName := "img"; tagName := "IMG"; interface := HTMLImageElement;
     className := ""; alt := "Photo"; srcsetAttr := srcsetAttr; src := src;
     role := None; ariaLabel := None; playsinline := false;
     sourceChildren := [];
     naturalWidth := naturalWidth; naturalHeight := naturalHeight;
     videoWidth := 0; videoHeight := 0;
     rect := rect; style := plain_style; hasOffsetParent := true;
     ancestors := []; inArticle := true |}.

Definition example_video (src : string) (videoWidth videoHeight : float)
    (rect : Rect) : Element :=
  {| localName := "video"; tagName := "VIDEO"; interface := HTMLVideoElement;
     className := ""; alt := ""; srcsetAttr := None; src := src;
     role := None; ariaLabel := None; playsinline := false;
     sourceChildren := [];
     naturalWidth := 0; naturalHeight := 0;
     videoWidth := videoWidth; videoHeight := videoHeight;
     rect := rect; style := plain_style; hasOffsetParent := true;
     ancestors := []; inArticle := true |}.

(** The Next button of a carousel. *)
Definition example_next_button : Element :=
  {| localName := "button"; tagName := "BUTTON"; interface := HTMLElement;
     className := ""; alt := ""; srcsetAttr := None; src := "";
     role := None; ariaLabel := Some "Next"; playsinline := false;
     sourceChildren := [];
     naturalWidth := 0; naturalHeight := 0; videoWidth := 0; videoHeight := 0;
     rect := rect_at 900 500 32 32; style := plain_style;
     hasOffsetParent := true; ancestors := []; inArticle := true |}.

(** The path of an absolute URL without dot segments: what lies between
    the authority and the query or the fragment. It stands for the URL
    parser of the host in the examples. *)
Fixpoint after_scheme (s : string) : string :=
  if startsWith s "://" then drop_chars 3 s
  else match s with
       | EmptyString => EmptyString
       | String _ s' => after_scheme s'
       end.

Fixpoint from_slash (s : string) : string :=
  match s with
  | EmptyString => "/"
  | String c s' => if Ascii.eqb c "/" then s else from_slash s'
  end.

Fixpoint until_query (s : string) : string :=
  match s with
  | EmptyString => EmptyString
  | String c s' =>
      if Ascii.eqb c "?" || Ascii.eqb c "#" then EmptyString
      else String c (until_query s')
  end.

Definition example_pathname (url : string) : option string :=
  Some (until_query (from_slash (after_scheme url))).

Definition example_stamp : Stamp :=
  {| filename_now := 1700000000000;
     filename_random := "0.k3x9zq1";
     created_now := 1700000000001 |}.

(** A page at [example_location] in a 1920 by 1080 window; [article] lists
    the elements inside the post container and [others] the elements
    outside of it. *)
Definition example_document (article others : list Element) : Document :=
  {| location := example_location;
     innerWidth := 1920; innerHeight := 1080;
     clientWidth := 1920; clientHeight := 1080;
     elements := article ++ others;
     article := Some article;
     URL_pathname := example_pathname;
     stamps := fun _ => example_stamp |}.

(** The same photo twice, another photo and a video. *)
Definition example_carousel : Document :=
  example_document
    [ example_img (Some "https://cdn.example.com/p/one.jpg 1080w")
        "https://cdn.example.com/p/one.jpg" 1080 1080 (rect_at 400 100 600 600);
      example_img (Some "https://cdn.example.com/p/one.jpg 1080w")
        "https://cdn.example.com/p/one.jpg" 1080 1080 (rect_at 1000 100 600 600);
      example_video "https://cdn.example.com/p/clip.mp4" 1280 720
        (rect_at 1600 100 600 340);
      example_img (Some "https://cdn.example.com/p/two.jpg 1080w")
        "https://cdn.example.com/p/two.jpg" 1080 1080 (rect_at 2200 100 600 600) ]
    [ example_next_button ].

(** An image and a video of one and the same address. *)
Definition shared_url_carousel : Document :=
  example_document
    [ example_img (Some "https://cdn.example.com/p/clip.mp4 1080w")
        "https://cdn.example.com/p/clip.mp4" 1080 1080 (rect_at 400 100 600 600);
      example_video "https://cdn.example.com/p/clip.mp4" 1280 720
        (rect_at 1000 100 600 340) ]
    [ example_next_button ].

(** The second item that the Instagram detector returns for
    [example_carousel]. *)
Definition example_second_item : MediaObject :=
  InstagramDetector.number_item 3 1
    (createMediaObject example_carousel example_stamp
       "https://cdn.example.com/p/two.jpg" "image"
       (example_img (Some "https://cdn.example.com/p/two.jpg 1080w")
          "https://cdn.example.com/p/two.jpg" 1080 1080 (rect_at 2200 100 600 600))
       0%float).

(** A carousel post with a single photo. *)
Definition single_item_carousel : Document :=
  example_document
    [ example_img (Some "https://cdn.example.com/p/one.jpg 1080w")
        "https://cdn.example.com/p/one.jpg" 1080 1080 (rect_at 400 100 600 600) ]
    [ example_next_button ].

End Reference.

Module QueueReference.
Import JsString MediaExtractor DownloadQueue.

(** The transfer request that [downloadFile] makes for a media object. *)
Definition request_for (media : MediaObject) : DownloadOptions :=
  {| opt_url := mo_url media;
     opt_filename := mo_filename media;
     opt_conflictAction := conflictAction (downloads CONFIG);
     opt_saveAs := false |}.

(** Every transfer attempt for [media] fails: in whatever state the
    transport is, it rejects the request, or it accepts it and the wait
    for the transfer ends with an error event or with the timeout. *)
Definition always_fails (tr : Transport) (media : MediaObject) : Prop :=
  forall t : T tr,
    match download tr (request_for media) t with
    | (inl _, _) => True
    | (inr downloadId, t') => fst (terminal tr downloadId t') <> Complete
    end.

(** The next [n] transfer attempts for the request [opts], made one after
    the other from the transport state [t], all fail: each time the
    transport rejects the request, or it accepts it and the wait for the
    transfer ends with an error event or with the timeout. *)
Fixpoint attempts_fail (tr : Transport) (opts : DownloadOptions) (n : nat)
    (t : T tr) : Prop :=
  match n with
  | O => True
  | S n' =>
      match download tr opts t with
      | (inl _, t') => attempts_fail tr opts n' t'
      | (inr downloadId, t') =>
          match terminal tr downloadId t' with
          | (Complete, _) => False
          | (_, t'') => attempts_fail tr opts n' t''
          end
      end
  end.

(** [{ media, status: 'failed', error }] *)
Definition failed_result (media : MediaObject) (error : string) : DownloadResult :=
  {| res_media := media; res_status := failed;
     res_downloadId := None; res_error := Some error |}.

(** The instance right after the guard of [process]: marked as
    processing, with an empty results list. *)
Definition started (this : State) : State :=
  {| queue := queue this; isProcessing := true;
     currentDownload := currentDownload this; results := [] |}.

(** What [process] records for an item, given how its download ended. *)
Definition result_of (item : QueueItem) (outcome : string + DownloadResult)
  : DownloadResult :=
  match outcome with
  | inr result => result
  | inl error => failed_result (qi_media item) error
  end.

(** The results of downloading some items one after the other, and the
    world afterwards. *)
Fixpoint run_items (tr : Transport) (items : list QueueItem) (w : World tr)
  : list DownloadResult * World tr :=
  match items with
  | [] => ([], w)
  | item :: rest =>
      let '(outcome, _, w1) := downloadWithRetry tr item w in
      let '(rs, w2) := run_items tr rest w1 in
      (result_of item outcome :: rs, w2)
  end.

(** A transport for the examples: it hands out the transfer ids 1, 2, ...
    and completes every transfer, except that it rejects every request
    for an address that contains the word broken. *)
Definition example_transport : Transport :=
  {| T := Z;
     download := fun opts next =>
       if includes (opt_url opts) "broken"
       then (inl "Invalid URL", next)
       else (inr next, next + 1);
     terminal := fun downloadId next => (Complete, next) |}.

Definition example_world : World example_transport :=
  {| transport := (1 : T example_transport); log := [] |}.

Definition example_media (url filename : string) : MediaObject :=
  {| mo_url := url; mo_filename := filename; mo_type := "image";
     mo_score := 0; mo_element := "img"; mo_timestamp := 1700000000001;
     mo_position := None; mo_totalItems := None |}.

Definition example_items : list MediaObject :=
  [ example_media "https://example.com/image1.jpg" "image1.jpg";
    example_media "https://example.com/broken.jpg" "broken.jpg";
    example_media "https://example.com/image3.jpg" "image3.jpg" ].

(** A fresh queue to which the three example items were added. *)
Definition example_queue : State :=
  add example_items "https://example.com/page" constructor.

Definition example_item (media : MediaObject) : QueueItem :=
  {| qi_media := media; qi_sourceUrl := "https://example.com/page";
     qi_retryCount := 0; qi_status := pending |}.

Definition broken_media : MediaObject :=
  example_media "https://example.com/broken.jpg" "broken.jpg".

(** The states in which another caller finds the instance while a call
    of [process], made on the instance [this] in the world [w], is under
    way: the call has passed its guard, has dealt with the items [before],
    has taken the next item from the queue and awaits its download. The
    retry count and the status of that item are what [downloadWithRetry]
    has last written into it. *)
Definition in_progress (tr : Transport) (this : State) (w : World tr)
    (mid : State) : Prop :=
  exists armed before item behind retryCount status,
    process_enter this = inr armed
    /\ queue this = before ++ item :: behind
    /\ mid = take_item {| qi_media := qi_media item;
                          qi_sourceUrl := qi_sourceUrl item;
                          qi_retryCount := retryCount;
                          qi_status := status |}
               behind (fst (process_loop tr before armed w)).

(** The example queue in the middle of its run: the first item is done,
    the second is being tried for the third time, the third waits. *)
Definition busy_queue : State :=
  match process_enter example_queue with
  | inr armed =>
      take_item (with_attempt 2 (example_item broken_media))
        [ example_item (example_media "https://example.com/image3.jpg" "image3.jpg") ]
        (fst (process_loop example_transport
                [ example_item (example_media "https://example.com/image1.jpg"
                                  "image1.jpg") ]
                armed example_world))
  | inl _ => example_queue
  end.

End QueueReference.

(* ===================================================================== *)
(** ** Further reference definitions for the download queue *)
(* ===================================================================== *)

Module QueueScenarios.
Import JsString MediaExtractor DownloadQueue QueueReference.

(** The pauses among some events, in milliseconds. *)
Definition sleeps (evs : list Event) : list Z :=
  omap (fun ev => match ev with Slept ms => Some ms | _ => None end) evs.

(** The waits for a transfer among some events. *)
Definition listens (evs : list Event) : list Z :=
  omap (fun ev => match ev with Listened downloadId => Some downloadId | _ => None end)
       evs.


(** [{ media, status: 'completed', downloadId }] *)
Definition completed_result (media : MediaObject) (downloadId : Z) : DownloadResult :=
  {| res_media := media; res_status := completed;
     res_downloadId := Some downloadId; res_error := None |}.

(** The shape of a result: completed with a transfer id and no error, or
    failed with an error and no transfer id. *)
Definition well_formed_result (r : DownloadResult) : Prop :=
  (res_status r = completed
   /\ (exists downloadId, res_downloadId r = Some downloadId) /\ res_error r = None)
  \/ (res_status r = failed
      /\ res_downloadId r = None /\ exists error, res_error r = Some error).



End QueueScenarios.

(* ===================================================================== *)
(** ** Reference notions for the DOM analyzer and the detectors *)
(* ===================================================================== *)

Module DomReference.
Import JsString DomAnalyzer.

(** No character of the string is a single or a double quote. *)
Fixpoint quote_free (s : string) : bool :=
  match s with
  | EmptyString => true
  | String c s' => negb (is_quote c) && quote_free s'
  end.

(** The class names that decide [shouldExcludeByClassName]: the
    configured ones without advertisement, which contains ad. *)
Definition decidingClassNames : list string :=
  ["ad"; "sponsor"; "banner"; "icon"; "avatar"; "thumbnail-small"; "logo"].

(** What [filterElements] keeps, without the icon test. *)
Definition passes_filter (element : Element) : bool :=
  isElementVisible element
  && negb (isTooSmall (calculateElementSize element))
  && negb (shouldExcludeByClassName element).

(** An element with the given class attribute and computed
    background-image, 800 by 600 pixels at the top left of the page. *)
Definition example_div (className backgroundImage : string) : Element :=
  {| localName := "div"; tagName := "DIV"; interface := HTMLElement;
     className := className; alt := ""; srcsetAttr := None; src := "";
     role := None; ariaLabel := None; playsinline := false;
     sourceChildren := [];
     naturalWidth := 0; naturalHeight := 0; videoWidth := 0; videoHeight := 0;
     rect := Reference.rect_at 0 0 800 600;
     style := {| display := "block"; visibility := "visible"; opacity := "1";
                 backgroundImage := backgroundImage; borderRadius := "0px" |};
     hasOffsetParent := true; ancestors := []; inArticle := false |}.

(** A page outside Instagram with one large photo and a small button. *)
Definition generic_page : Document :=
  Reference.example_document []
    [ Reference.example_img None "/images/hero.jpg" 1200 800
        (Reference.rect_at 100 100 1200 800);
      Reference.example_next_button ].

(** A page with nothing but a small button. *)
Definition bare_page : Document :=
  Reference.example_document [] [ Reference.example_next_button ].

End DomReference.

(* ===================================================================== *)
(** * Properties *)
(* ===================================================================== *)

(** ** Strings *)

Section StringFacts.
Import JsString.

Lemma startsWith_app (p s : string) : startsWith (p +:+ s) p = true.
Proof.
  induction p as [|c p IH]; simpl.
  - now destruct s.
  - now rewrite Ascii.eqb_refl.
Qed.

Lemma startsWith_inv (s p : string) :
  startsWith s p = true -> exists r, s = p +:+ r.
Proof.
  revert s.
  induction p as [|c p IH]; intros s H; simpl in *.
  - now exists s.
  - destruct s as [|a s]; [discriminate|].
    apply andb_true_iff in H as [Hc H].
    apply Ascii.eqb_eq in Hc as ->.
    destruct (IH _ H) as [r ->]. now exists r.
Qed.

Lemma length_append (a b : string) :
  String.length (a +:+ b) = (String.length a + String.length b)%nat.
Proof. induction a as [|c a IH]; simpl; [reflexivity|now rewrite IH]. Qed.

Lemma lastIndexOf_lower_bound (s : string) (c : ascii) : -1 <= lastIndexOf s c.
Proof.
  induction s as [|a s IH]; simpl; [lia|].
  destruct (Z.leb_spec 0 (lastIndexOf s c)); [lia|].
  destruct (Ascii.eqb a c); lia.
Qed.

(** A character before an occurrence of [c] pushes the last index up. *)
Lemma lastIndexOf_cons_found (a c : ascii) (s : string) :
  0 <= lastIndexOf s c -> lastIndexOf (String a s) c = lastIndexOf s c + 1.
Proof.
  intros H. simpl. destruct (Z.leb_spec 0 (lastIndexOf s c)); lia.
Qed.

Lemma lastIndexOf_cons_hit (c : ascii) (s : string) :
  0 <= lastIndexOf (String c s) c.
Proof.
  simpl. destruct (Z.leb_spec 0 (lastIndexOf s c)); [lia|].
  rewrite Ascii.eqb_refl. lia.
Qed.

Lemma substring_cons (a : ascii) (s : string) (j : Z) :
  0 < j -> substring (String a s) 0 j = String a (substring s 0 (j - 1)).
Proof.
  intros Hj. unfold substring. simpl. rewrite !Nat.sub_0_r.
  replace (Z.to_nat j) with (S (Z.to_nat (j - 1))) by lia.
  reflexivity.
Qed.

Lemma includes_startsWith (s search : string) :
  startsWith s search = true -> includes s search = true.
Proof. intros H. destruct s; cbn [includes]; now rewrite H. Qed.

(** What [includes] decides. *)
Lemma includes_spec (s search : string) :
  includes s search = true <-> exists a b, s = a +:+ search +:+ b.
Proof.
  split.
  - induction s as [|c s IH]; cbn [includes]; intros H.
    + rewrite orb_false_r in H. apply (startsWith_inv "" search) in H.
      destruct H as [r ->]. now exists "", r.
    + apply orb_true_iff in H as [H|H].
      * apply (startsWith_inv (String c s) search) in H.
        destruct H as [r ->]. now exists "", r.
      * destruct (IH H) as (a & b & ->). now exists (String c a), b.
  - intros (a & b & ->). induction a as [|c a IH].
    + apply includes_startsWith. exact (startsWith_app search b).
    + change (String c a +:+ search +:+ b) with (String c (a +:+ search +:+ b)).
      cbn [includes]. rewrite IH. apply orb_true_r.
Qed.

Lemma append_assoc (a b c : string) : (a +:+ b) +:+ c = a +:+ (b +:+ c).
Proof. induction a as [|x a IH]; simpl; [reflexivity|now rewrite IH]. Qed.

Lemma startsWith_append (s t p : string) :
  startsWith s p = true -> startsWith (s +:+ t) p = true.
Proof.
  intros H. apply startsWith_inv in H as [r ->].
  rewrite append_assoc. apply startsWith_app.
Qed.

Lemma startsWith_nonempty (s p : string) :
  p <> "" -> startsWith s p = true -> String.eqb s "" = false.
Proof. destruct p, s; simpl; congruence. Qed.

Lemma lastIndexOf_append (p s : string) (c : ascii) :
  0 <= lastIndexOf s c ->
  lastIndexOf (p +:+ s) c = lastIndexOf s c + Z.of_nat (String.length p).
Proof.
  intros H. induction p as [|a p IH]; [simpl; lia|].
  change (String a p +:+ s) with (String a (p +:+ s)).
  rewrite lastIndexOf_cons_found; rewrite IH; simpl String.length; lia.
Qed.

Lemma take_chars_append (p r : string) (n : nat) :
  take_chars (String.length p + n) (p +:+ r) = p +:+ take_chars n r.
Proof. induction p as [|a p IH]; simpl; [reflexivity|now rewrite IH]. Qed.

Lemma substring_from_zero (s : string) (j : Z) :
  substring s 0 j = take_chars (Z.to_nat j) s.
Proof.
  unfold substring. change (Z.to_nat 0) with O.
  now rewrite Nat.sub_0_r.
Qed.

(** The directory part of an address keeps a prefix that ends in a
    slash. *)
Lemma directory_keeps_prefix (address p : string) :
  startsWith address (p +:+ "/") = true ->
  startsWith (substring address 0 (lastIndexOf address "/" + 1)) (p +:+ "/") = true.
Proof.
  intros H. apply startsWith_inv in H as [r ->].
  rewrite substring_from_zero.
  pose proof (lastIndexOf_cons_hit "/" r) as Hhit.
  assert (Hlast : lastIndexOf ((p +:+ "/") +:+ r) "/"
                  = lastIndexOf (String "/" r) "/" + Z.of_nat (String.length p)).
  { rewrite append_assoc. exact (lastIndexOf_append p (String "/" r) "/" Hhit). }
  rewrite Hlast.
  replace (Z.to_nat (lastIndexOf (String "/" r) "/" + Z.of_nat (String.length p) + 1))
    with (String.length (p +:+ "/") + Z.to_nat (lastIndexOf (String "/" r) "/"))%nat
    by (rewrite length_append; simpl String.length; lia).
  rewrite take_chars_append. apply startsWith_app.
Qed.

Lemma lastIndexOf_absent (s : string) (c : ascii) :
  lastIndexOf s c = -1 <-> includes s (String c "") = false.
Proof.
  induction s as [|a s IH]; [simpl; tauto|].
  cbn [lastIndexOf includes startsWith]. pose proof (lastIndexOf_lower_bound s c).
  rewrite andb_true_r.
  destruct (Z.leb_spec 0 (lastIndexOf s c)) as [Hr|Hr].
  - destruct (includes s (String c "")) eqn:Hinc.
    + rewrite orb_true_r. split; [lia|discriminate].
    + assert (lastIndexOf s c = -1) by now apply IH. lia.
  - assert (Hs : includes s (String c "") = false) by (apply IH; lia).
    rewrite Hs, orb_false_r. destruct (Ascii.eqb a c); split; (lia || congruence).
Qed.

(** The last occurrence of a character splits the string. *)
Lemma lastIndexOf_split (s : string) (c : ascii) :
  0 <= lastIndexOf s c ->
  exists a b, s = a +:+ String c b
              /\ lastIndexOf b c = -1
              /\ lastIndexOf s c = Z.of_nat (String.length a).
Proof.
  induction s as [|x s IH]; [simpl; lia|].
  pose proof (lastIndexOf_lower_bound s c).
  cbn [lastIndexOf]. destruct (Z.leb_spec 0 (lastIndexOf s c)) as [Hr|Hr].
  - intros _. destruct (IH Hr) as (a & b & -> & Hb & Hlen).
    exists (String x a), b. simpl String.length. repeat split; [assumption|lia].
  - destruct (Ascii.eqb_spec x c) as [->|]; [|lia]. intros _.
    exists "", s. simpl. repeat split. lia.
Qed.

Lemma take_chars_exact (a b : string) : take_chars (String.length a) (a +:+ b) = a.
Proof. induction a as [|x a IH]; simpl; [now destruct b|now rewrite IH]. Qed.

Lemma drop_chars_exact (a b : string) : drop_chars (String.length a) (a +:+ b) = b.
Proof. induction a as [|x a IH]; simpl; [reflexivity|exact IH]. Qed.

End StringFacts.

(** ** URLs and file names *)

Section ExtractorFacts.
Import JsString MediaExtractor Reference.

(** C10: a URL whose lower-case form contains none of the known
    extensions (with their dot) gets the extension jpg, so the generated
    name is media_{timestamp}_{random}.jpg; in general the extension is
    the first one of the fixed priority list that occurs anywhere in the
    lower-cased URL, be it in the query string or before another
    extension. *)
Theorem guessExtension_default_jpg (url : string) (timestamp : Z) (random36 : string) :
  Forall (fun ext => includes (toLowerCase url) ("." +:+ ext) = false)
         knownExtensions ->
  guessExtensionFromUrl url = "jpg"
  /\ generateFilename timestamp random36 url
      = "media_" +:+ NilEmpty.string_of_int (Z.to_int timestamp) +:+ "_"
          +:+ substring random36 2 6 +:+ ".jpg"
  /\ (forall u, guessExtensionFromUrl u = extension_by_priority (toLowerCase u))
  /\ guessExtensionFromUrl "https://cdn.example.com/photo?format=.PNG" = "png"
  /\ guessExtensionFromUrl "https://cdn.example.com/clip.mp4?thumb=.gif" = "gif".
Proof.
  intros Hnone.
  assert (Hjpg : guessExtensionFromUrl url = "jpg").
  { unfold guessExtensionFromUrl. destruct (String.eqb url ""); [reflexivity|].
    unfold knownExtensions in Hnone. rewrite !Forall_cons in Hnone.
    simpl String.append in Hnone.
    destruct Hnone as (-> & -> & -> & -> & -> & -> & -> & -> & -> & _).
    reflexivity. }
  split; [exact Hjpg|]. split.
  { unfold generateFilename. now rewrite Hjpg. }
  split; [|split; reflexivity].
  intros u. unfold guessExtensionFromUrl.
  destruct (String.eqb_spec u "") as [->|_]; [reflexivity|].
  unfold extension_by_priority, knownExtensions.
  simpl.
  repeat match goal with
         | |- context [includes ?s ?e] => destruct (includes s e)
         end; reflexivity.
Qed.

(** Witness of C10: a URL without any known extension. *)
Lemma guessExtension_default_jpg_witness :
  guessExtensionFromUrl "https://cdn.example.com/media/12345" = "jpg"
  /\ generateFilename 1700000000000 "0.k3x9zq1" "https://cdn.example.com/media/12345"
      = "media_1700000000000_k3x9.jpg".
Proof.
  destruct (guessExtension_default_jpg "https://cdn.example.com/media/12345"
              1700000000000 "0.k3x9zq1") as (H1 & H2 & _).
  - unfold knownExtensions. repeat constructor.
  - split; [exact H1 | exact H2].
Defined.

Lemma makeAbsoluteUrl_http (loc : Location) (url : string) :
  is_http url = true -> makeAbsoluteUrl loc url = url.
Proof.
  unfold is_http, makeAbsoluteUrl. intros ->. now destruct (String.eqb url "").
Qed.

(** On an http(s) page every non-empty URL is made into an http(s) URL. *)
Lemma makeAbsoluteUrl_is_http (loc : Location) (url : string) :
  http_location loc -> url <> "" -> is_http (makeAbsoluteUrl loc url) = true.
Proof.
  intros (Hproto & Horigin & Hhref) Hne. unfold makeAbsoluteUrl.
  destruct (String.eqb_spec url "") as [|_]; [contradiction|].
  destruct (startsWith url "http://" || startsWith url "https://") eqn:Habs;
    [exact Habs|].
  unfold is_http.
  destruct (startsWith url "//") eqn:Hrel.
  { apply startsWith_inv in Hrel as [r ->].
    destruct Hproto as [-> | ->]; reflexivity. }
  destruct (startsWith url "/") eqn:Hroot.
  { destruct Hproto as [Hp | Hp]; rewrite Hp in Horigin;
      rewrite (startsWith_append _ _ _ Horigin); [reflexivity | apply orb_true_r]. }
  destruct Hproto as [Hp | Hp]; rewrite Hp in Hhref.
  - pose proof (startsWith_append _ url _ (directory_keeps_prefix _ "http:/" Hhref))
      as Hbase.
    change ("http:/" +:+ "/") with "http://" in Hbase. now rewrite Hbase.
  - pose proof (startsWith_append _ url _ (directory_keeps_prefix _ "https:/" Hhref))
      as Hbase.
    change ("https:/" +:+ "/") with "https://" in Hbase. rewrite Hbase.
    apply orb_true_r.
Qed.

(** C7, as amended: on a page whose location is an http or https address,
    making a URL absolute twice gives what making it absolute once gives. *)
Theorem makeAbsoluteUrl_idempotent (loc : Location) (url : string) :
  http_location loc ->
  makeAbsoluteUrl loc (makeAbsoluteUrl loc url) = makeAbsoluteUrl loc url.
Proof.
  intros Hloc. destruct (String.eqb_spec url "") as [->|Hne]; [reflexivity|].
  apply makeAbsoluteUrl_http, makeAbsoluteUrl_is_http; assumption.
Qed.

(** Witness of C7: a relative path on the page of the unit tests. *)
Lemma makeAbsoluteUrl_idempotent_witness :
  http_location example_location
  /\ makeAbsoluteUrl example_location "images/photo.jpg"
      = "https://example.com/page/images/photo.jpg"
  /\ makeAbsoluteUrl example_location
        (makeAbsoluteUrl example_location "images/photo.jpg")
      = makeAbsoluteUrl example_location "images/photo.jpg".
Proof.
  assert (H : http_location example_location).
  { unfold http_location. simpl. split; [right; reflexivity|split; reflexivity]. }
  split; [exact H|]. split; [reflexivity|].
  exact (makeAbsoluteUrl_idempotent example_location "images/photo.jpg" H).
Defined.

(** Counterexample to C7 as stated: on a page opened from a file, a
    protocol-relative URL becomes a file URL, which a second application
    takes for a relative path and prefixes with the page directory. *)
Lemma makeAbsoluteUrl_not_idempotent_on_file_page :
  makeAbsoluteUrl file_location "//cdn.example.com/a.jpg" = "file://cdn.example.com/a.jpg"
  /\ makeAbsoluteUrl file_location
        (makeAbsoluteUrl file_location "//cdn.example.com/a.jpg")
      = "file:///home/user/file://cdn.example.com/a.jpg"
  /\ makeAbsoluteUrl file_location
        (makeAbsoluteUrl file_location "//cdn.example.com/a.jpg")
      <> makeAbsoluteUrl file_location "//cdn.example.com/a.jpg".
Proof. repeat split; try reflexivity. discriminate. Qed.

End ExtractorFacts.

(** ** The responsive-source list *)

Section SrcsetFacts.
Import JsString MediaExtractor Reference.

Lemma Num_sub_pos_lt (x y : Num) : Num_sub_pos x y = true <-> Num_lt y x.
Proof.
  destruct x, y; simpl; try (split; [discriminate|tauto]); try tauto.
  apply Z.ltb_lt.
Qed.

Lemma Num_lt_trans (x y z : Num) : Num_lt x y -> Num_lt y z -> Num_lt x z.
Proof. destruct x, y, z; simpl; try tauto; lia. Qed.

(** The order is total: what is not below is above or equal. *)
Lemma Num_not_lt_trans (x y z : Num) :
  ~ Num_lt x y -> ~ Num_lt y z -> ~ Num_lt x z.
Proof. destruct x, y, z; simpl; try tauto; lia. Qed.

Lemma round_binary64_exact (z : Z) : z < 2 ^ 53 -> round_binary64 z = Finite z.
Proof.
  intros H. unfold round_binary64.
  destruct (Z.ltb_spec z (2 ^ 53)); [reflexivity|lia].
Qed.

Lemma parse_source_url (source : string) :
  src_url (parse_source source) = entry_url source.
Proof. reflexivity. Qed.

(** The descriptors that carry a width are the non-empty strings of
    digits followed by w. *)
Lemma match_width_spec (descriptor digits : string) :
  match_width descriptor = Some digits
  <-> descriptor = digits +:+ "w" /\ digits <> "" /\ all_digits digits = true.
Proof.
  split.
  - revert digits. induction descriptor as [|c rest IH]; intros digits H;
      [discriminate|].
    simpl in H. destruct (is_digit c) eqn:Hc; [|discriminate].
    destruct (String.eqb_spec rest "w") as [->|Hrest].
    + injection H as <-. simpl. now rewrite Hc.
    + destruct (match_width rest) as [ds|] eqn:Hm; [|discriminate].
      injection H as <-. destruct (IH ds eq_refl) as (-> & _ & Hds).
      simpl. now rewrite Hc, Hds.
  - intros (-> & Hne & Hds). induction digits as [|c ds IH]; [contradiction|].
    simpl in Hds. apply andb_true_iff in Hds as [Hc Hds].
    simpl. rewrite Hc.
    destruct (String.eqb_spec (ds +:+ "w") "w") as [Heq|Hneq].
    + destruct ds as [|a ds]; [reflexivity|].
      destruct ds; discriminate.
    + destruct ds as [|a ds]; [contradiction|].
      rewrite IH; [reflexivity|discriminate|exact Hds].
Qed.

Lemma take_drop_chars (n : nat) (s : string) :
  take_chars n s +:+ drop_chars n s = s.
Proof.
  revert s. induction n as [|n IH]; intros [|c s]; simpl; try reflexivity.
  now rewrite IH.
Qed.

(** The reference reading of a descriptor, on its own terms. *)
Lemma descriptor_digits_spec (descriptor digits : string) :
  descriptor_digits descriptor = Some digits
  <-> descriptor = digits +:+ "w" /\ digits <> "" /\ all_digits digits = true.
Proof.
  unfold descriptor_digits. split.
  - destruct (String.eqb_spec
                (drop_chars (String.length descriptor - 1) descriptor) "w")
      as [Hlast|_]; [|discriminate].
    destruct (String.eqb_spec
                (take_chars (String.length descriptor - 1) descriptor) "")
      as [|Hne]; [discriminate|].
    destruct (all_digits (take_chars (String.length descriptor - 1) descriptor))
      eqn:Hdigits; [|discriminate].
    cbn [negb andb]. intros [= <-]. split; [|split; assumption].
    rewrite <- Hlast. symmetry. apply take_drop_chars.
  - intros (-> & Hne & Hdigits).
    replace (String.length (digits +:+ "w") - 1)%nat with (String.length digits)
      by (rewrite length_append; simpl; lia).
    rewrite take_chars_exact, drop_chars_exact, Hdigits.
    destruct (String.eqb_spec digits "") as [|_]; [contradiction|reflexivity].
Qed.

(** The pattern matcher of the code finds the digits of a descriptor. *)
Lemma match_width_descriptor_digits (descriptor : string) :
  match_width descriptor = descriptor_digits descriptor.
Proof.
  destruct (match_width descriptor) as [digits|] eqn:Hcode.
  - symmetry. apply descriptor_digits_spec. now apply match_width_spec.
  - destruct (descriptor_digits descriptor) as [digits|] eqn:Href;
      [|reflexivity].
    apply descriptor_digits_spec, match_width_spec in Href. congruence.
Qed.

Lemma digit_value_digit (c : ascii) : is_digit c = true -> digit_value c = digit c.
Proof.
  destruct c as [[] [] [] [] [] [] [] []]; vm_compute; intros H;
    first [discriminate H | reflexivity].
Qed.

Lemma decimal_value_from_spelled (acc : Z) (digits : string) :
  all_digits digits = true ->
  decimal_value_from acc digits
  = acc * 10 ^ Z.of_nat (String.length digits) + spelled digits.
Proof.
  revert acc. induction digits as [|c rest IH]; intros acc Hdigits.
  - cbn [decimal_value_from spelled String.length]. change (10 ^ Z.of_nat 0) with 1.
    lia.
  - cbn [all_digits] in Hdigits. apply andb_true_iff in Hdigits as [Hc Hrest].
    cbn [decimal_value_from spelled String.length].
    rewrite (IH _ Hrest), (digit_value_digit c Hc), Nat2Z.inj_succ,
      Z.pow_succ_r by lia.
    ring.
Qed.

(** On digits, the loop of parseInt computes the integer they spell. *)
Lemma decimal_value_spelled (digits : string) :
  all_digits digits = true -> decimal_value digits = spelled digits.
Proof.
  intros Hdigits. unfold decimal_value.
  rewrite (decimal_value_from_spelled 0 digits Hdigits). lia.
Qed.

(** The width that the code gives to an entry is the Number of the width
    that the entry declares. *)
Lemma parse_source_width (source : string) :
  src_width (parse_source source) = number_width source.
Proof.
  unfold parse_source, number_width, declared_width. cbn [src_width].
  fold (entry_descriptor source).
  rewrite match_width_descriptor_digits.
  destruct (descriptor_digits (entry_descriptor source)) as [digits|] eqn:Href;
    [|reflexivity].
  apply descriptor_digits_spec in Href as (_ & _ & Hdigits).
  unfold parseInt. now rewrite (decimal_value_spelled digits Hdigits).
Qed.

Lemma sort_insert_head {A} (after : A -> A -> bool) (x : A) (l : list A) :
  head (sort_insert after x l)
  = match l with
    | [] => Some x
    | y :: _ => if after x y then Some y else Some x
    end.
Proof. destruct l as [|y l]; simpl; [reflexivity|now destruct (after x y)]. Qed.

(** The head of the sorted entries is the first entry of the greatest
    Number width. *)
Lemma sorted_head_first_max (l : list string) :
  l <> [] ->
  exists before winner behind,
    l = before ++ winner :: behind
    /\ (forall s, In s before -> Num_lt (number_width s) (number_width winner))
    /\ (forall s, In s behind -> ~ Num_lt (number_width winner) (number_width s))
    /\ head (array_sort width_after (map parse_source l))
        = Some (parse_source winner).
Proof.
  induction l as [|x l IH]; [congruence|]. intros _.
  destruct l as [|y l].
  - exists [], x, []. simpl. repeat split; intros s [].
  - destruct IH as (before & winner & behind & Heq & Hlt & Hge & Hhead);
      [discriminate|].
    change (array_sort width_after (map parse_source (x :: y :: l)))
      with (sort_insert width_after (parse_source x)
              (array_sort width_after (map parse_source (y :: l)))).
    rewrite sort_insert_head.
    destruct (array_sort width_after (map parse_source (y :: l))) as [|w sorted];
      [discriminate|].
    simpl in Hhead. injection Hhead as ->.
    unfold width_after at 1. rewrite !parse_source_width.
    destruct (Num_sub_pos (number_width winner) (number_width x)) eqn:Hcmp.
    + apply Num_sub_pos_lt in Hcmp.
      exists (x :: before), winner, behind. rewrite Heq.
      repeat split; try assumption.
      intros s [<-|Hs]; [assumption|now apply Hlt].
    + assert (Hnot : ~ Num_lt (number_width x) (number_width winner)).
      { intros Hc. apply Num_sub_pos_lt in Hc. congruence. }
      exists [], x, (y :: l). repeat split.
      * intros s [].
      * rewrite Heq. intros s Hs. apply in_app_or in Hs as [Hs|[<-|Hs]].
        -- intros Hc. apply Hnot. eapply Num_lt_trans; [exact Hc|now apply Hlt].
        -- exact Hnot.
        -- eapply Num_not_lt_trans; [exact Hnot|now apply Hge].
Qed.

Lemma split_char_nonempty (s : string) (sep : ascii) : split_char s sep <> [].
Proof. unfold split_char. now destruct (split_char_go sep s). Qed.

(** C5, as amended: for a non-empty srcset, the URL returned is that of
    the first comma-separated entry whose width, as the Number that
    parseInt makes of the digits of a <digits>w descriptor and 0 without
    such a descriptor, is greatest: entries before it are strictly
    narrower, entries behind it are not wider. Null is returned when that
    URL is empty. extractImageUrl returns this URL made absolute when it is
    not empty. The width of an entry is read off its descriptor: a
    non-empty string of digits followed by w declares the integer that
    the digits spell, and the code compares the Number that parseInt
    makes of these digits; every other descriptor counts as 0. Declared
    widths below 2^53 are compared exactly; above, widths that round to
    the same Number count as equal. *)
Theorem srcset_first_greatest_width (value : string) :
  value <> "" ->
  exists before winner behind,
    split_char value "," = before ++ winner :: behind
    /\ (forall s, In s before -> Num_lt (number_width s) (number_width winner))
    /\ (forall s, In s behind -> ~ Num_lt (number_width winner) (number_width s))
    /\ getHighestResolutionFromSrcset value
        = (if String.eqb (entry_url winner) "" then None
           else Some (entry_url winner))
    /\ (forall loc img,
          srcset img = value -> entry_url winner <> "" ->
          extractImageUrl loc img = Some (makeAbsoluteUrl loc (entry_url winner)))
    /\ (forall s, declared_width s < 2 ^ 53 ->
                  number_width s = Finite (declared_width s))
    /\ (forall s,
          (forall digits, entry_descriptor s = digits +:+ "w" ->
                          digits <> "" -> all_digits digits = false) ->
          number_width s = Finite 0)
    /\ (forall s digits,
          entry_descriptor s = digits +:+ "w" ->
          digits <> "" -> all_digits digits = true ->
          declared_width s = spelled digits
          /\ number_width s = parseInt digits
          /\ src_width (parse_source s) = parseInt digits)
    /\ (forall s, src_width (parse_source s) = number_width s
                  /\ src_url (parse_source s) = entry_url s).
Proof.
  intros Hne.
  destruct (sorted_head_first_max (split_char value ",") (split_char_nonempty _ _))
    as (before & winner & behind & Heq & Hlt & Hge & Hhead).
  assert (Hres : getHighestResolutionFromSrcset value
                 = (if String.eqb (entry_url winner) "" then None
                    else Some (entry_url winner))).
  { unfold getHighestResolutionFromSrcset, parse_srcset.
    destruct (String.eqb_spec value "") as [|_]; [contradiction|].
    destruct (array_sort width_after (map parse_source (split_char value ",")))
      as [|w sorted]; [discriminate|].
    simpl in Hhead. injection Hhead as ->. now rewrite parse_source_url. }
  assert (Hdeclared : forall s digits,
             entry_descriptor s = digits +:+ "w" ->
             digits <> "" -> all_digits digits = true ->
             declared_width s = spelled digits
             /\ number_width s = parseInt digits).
  { intros s digits Hd Hnonempty Hdigits.
    assert (Href : descriptor_digits (entry_descriptor s) = Some digits)
      by now apply descriptor_digits_spec.
    unfold number_width, declared_width. rewrite Href. split; [reflexivity|].
    unfold parseInt. now rewrite (decimal_value_spelled digits Hdigits). }
  exists before, winner, behind.
  split; [exact Heq|]. split; [exact Hlt|]. split; [exact Hge|].
  split; [exact Hres|]. split; [|split; [|split; [|split]]].
  - intros loc img Hsrcset Hurl. unfold extractImageUrl.
    rewrite Hsrcset, Hres.
    destruct (String.eqb_spec value "") as [|_]; [contradiction|].
    destruct (String.eqb_spec (entry_url winner) "") as [|_]; [contradiction|].
    reflexivity.
  - intros s Hs. now apply round_binary64_exact.
  - intros s Hs. unfold number_width, declared_width.
    destruct (descriptor_digits (entry_descriptor s)) as [digits|] eqn:Hm;
      [|reflexivity].
    apply descriptor_digits_spec in Hm as (Hd & Hnonempty & Hdigits).
    rewrite (Hs digits Hd Hnonempty) in Hdigits. discriminate.
  - intros s digits Hd Hnonempty Hdigits.
    destruct (Hdeclared s digits Hd Hnonempty Hdigits) as [Hwidth Hnumber].
    split; [exact Hwidth|]. split; [exact Hnumber|].
    now rewrite parse_source_width.
  - intros s. split; [apply parse_source_width|apply parse_source_url].
Qed.

(** Witness of C5: for the srcset of the unit tests the entry that wins is
    the second one, which declares the width 1920, and its URL is
    returned. *)
Lemma srcset_first_greatest_width_witness :
  exists before winner behind,
    split_char "img-320.jpg 320w, img-1920.jpg 1920w, img-640.jpg 640w" ","
    = before ++ winner :: behind
    /\ (forall s, In s before -> Num_lt (number_width s) (number_width winner))
    /\ (forall s, In s behind -> ~ Num_lt (number_width winner) (number_width s))
    /\ getHighestResolutionFromSrcset
          "img-320.jpg 320w, img-1920.jpg 1920w, img-640.jpg 640w"
        = (if String.eqb (entry_url winner) "" then None
           else Some (entry_url winner))
    /\ winner = " img-1920.jpg 1920w"
    /\ declared_width winner = 1920
    /\ number_width winner = Finite 1920
    /\ getHighestResolutionFromSrcset
          "img-320.jpg 320w, img-1920.jpg 1920w, img-640.jpg 640w"
        = Some "img-1920.jpg".
Proof.
  destruct (srcset_first_greatest_width
              "img-320.jpg 320w, img-1920.jpg 1920w, img-640.jpg 640w")
    as (before & winner & behind & H1 & H2 & H3 & H4 & _); [discriminate|].
  assert (Hwinner : winner = " img-1920.jpg 1920w").
  { assert (Hin : In winner
                    (split_char
                       "img-320.jpg 320w, img-1920.jpg 1920w, img-640.jpg 640w" ","))
      by (rewrite H1; apply in_elt).
    assert (Hurl : (if String.eqb (entry_url winner) "" then None
                    else Some (entry_url winner)) = Some "img-1920.jpg")
      by (rewrite <- H4; vm_compute; reflexivity).
    vm_compute in Hin.
    destruct Hin as [<-|[<-|[<-|[]]]];
      [vm_compute in Hurl; discriminate Hurl
      |reflexivity
      |vm_compute in Hurl; discriminate Hurl]. }
  exists before, winner, behind.
  split; [exact H1|]. split; [exact H2|]. split; [exact H3|]. split; [exact H4|].
  split; [exact Hwinner|]. rewrite Hwinner.
  split; [vm_compute; reflexivity|]. split; vm_compute; reflexivity.
Defined.

(** Counterexample to C5 as stated: of two entries the second declares
    the greater width, by one, but both widths parse to the same Number
    2^53, so that the first entry stays in front and its URL is returned. *)
Lemma srcset_greater_declared_width_not_returned :
  split_char "a.jpg 9007199254740992w, b.jpg 9007199254740993w" ","
  = ["a.jpg 9007199254740992w"; " b.jpg 9007199254740993w"]
  /\ declared_width "a.jpg 9007199254740992w" = 9007199254740992
  /\ declared_width " b.jpg 9007199254740993w" = 9007199254740993
  /\ entry_url " b.jpg 9007199254740993w" = "b.jpg"
  /\ number_width "a.jpg 9007199254740992w" = number_width " b.jpg 9007199254740993w"
  /\ getHighestResolutionFromSrcset
        "a.jpg 9007199254740992w, b.jpg 9007199254740993w" = Some "a.jpg"
  /\ getHighestResolutionFromSrcset
        "a.jpg 9007199254740992w, b.jpg 9007199254740993w" <> Some "b.jpg".
Proof. repeat split; try (vm_compute; reflexivity). vm_compute. discriminate. Qed.

End SrcsetFacts.

(** ** Scoring *)

Section ScoringFacts.
Import MediaExtractor DomAnalyzer GenericDetector Reference.
#[local] Open Scope float_scope.

(** The area is the product of the two sides, whichever dimensions are
    taken. *)
Lemma calculateElementSize_area (element : Element) :
  size_area (calculateElementSize element)
  = size_width (calculateElementSize element)
    * size_height (calculateElementSize element).
Proof.
  unfold calculateElementSize.
  destruct (interface element); simpl;
    repeat match goal with
           | |- context [if ?b then _ else _] => destruct b
           end; reflexivity.
Qed.

(** C8: a candidate of size 2000 by 1000 that is fully inside the viewport
    has area 2,000,000, viewport bonus 1.5 and, its width being above
    1920, quality bonus 1.3; its score, the product of the three in
    binary64 arithmetic, is exactly 3,900,000. *)
Theorem score_full_hd_candidate (doc : Document) (element : Element) :
  size_width (calculateElementSize element) = 2000 ->
  size_height (calculateElementSize element) = 1000 ->
  getViewportVisibility doc element = fully ->
  size_area (calculateElementSize element) = 2000000
  /\ calculateViewportBonus doc element = 1.5
  /\ calculateQualityBonus (size_width (calculateElementSize element)) = 1.3
  /\ sc_score (score_element doc element) = 2000000 * 1.5 * 1.3
  /\ sc_score (score_element doc element) = 3900000.
Proof.
  intros Hw Hh Hvis.
  assert (Harea : size_area (calculateElementSize element) = 2000000).
  { rewrite calculateElementSize_area, Hw, Hh. reflexivity. }
  assert (Hbonus : calculateViewportBonus doc element = 1.5).
  { unfold calculateViewportBonus. rewrite Hvis. reflexivity. }
  assert (Hquality : calculateQualityBonus (size_width (calculateElementSize element))
                     = 1.3).
  { rewrite Hw. reflexivity. }
  repeat split; try assumption.
  - unfold score_element. simpl. rewrite Harea, Hbonus, Hquality. reflexivity.
  - unfold score_element. simpl. rewrite Harea, Hbonus, Hquality. reflexivity.
Qed.

(** Witness of C8: an image of natural size 2000 by 1000, rendered at 960
    by 480 inside a 1920 by 1080 window. *)
Lemma score_full_hd_candidate_witness :
  sc_score (score_element
              (example_document [] [])
              (example_img None "https://example.com/hero.jpg" 2000 1000
                 (rect_at 100 100 960 480)))
  = 3900000.
Proof.
  apply (score_full_hd_candidate
           (example_document [] [])
           (example_img None "https://example.com/hero.jpg" 2000 1000
              (rect_at 100 100 960 480)));
    reflexivity.
Defined.

End ScoringFacts.

(** ** Media objects of the detectors *)

Section MediaObjectFacts.
Import JsString MediaExtractor DomAnalyzer Reference.

Lemma isValidMediaUrl_inv (url : string) :
  isValidMediaUrl url = true ->
  url <> "" /\ is_http url = true /\ startsWith url "data:" = false
  /\ JsString.length url <= 2048.
Proof.
  unfold isValidMediaUrl, is_http.
  destruct (String.eqb_spec url "") as [|Hne]; [discriminate|].
  destruct (startsWith url "http://" || startsWith url "https://") eqn:Hhttp.
  - apply orb_true_iff in Hhttp.
    replace (negb (startsWith url "http://") && negb (startsWith url "https://"))
      with false
      by (destruct Hhttp as [-> | ->]; [reflexivity|now rewrite andb_false_r]).
    destruct (startsWith url "data:") eqn:Hdata; [discriminate|].
    destruct (Z.gtb_spec (JsString.length url) 2048); [discriminate|].
    intros _. repeat split; assumption.
  - apply orb_false_iff in Hhttp as [-> ->]. discriminate.
Qed.

Lemma isValidMediaUrl_nonempty (url : string) :
  isValidMediaUrl url = true -> String.eqb url "" = false.
Proof.
  intros H. apply isValidMediaUrl_inv in H as (Hne & _).
  now destruct (String.eqb_spec url "").
Qed.

(** A valid URL is stored as it is. *)
Lemma createMediaObject_url (doc : Document) (st : Stamp) (url type : string)
    (element : Element) (score : float) :
  isValidMediaUrl url = true ->
  mo_url (createMediaObject doc st url type element score) = url.
Proof.
  intros H. apply isValidMediaUrl_inv in H as (_ & Hhttp & _).
  simpl. now apply makeAbsoluteUrl_http.
Qed.

(** A data URL never passes the validation, whatever follows the header. *)
Lemma isValidMediaUrl_data_url (rest : string) :
  isValidMediaUrl ("data:image/png;base64," +:+ rest) = false.
Proof. reflexivity. Qed.

Lemma detect_stage_valid (doc : Document) (candidates : list Element)
    (extract : Element -> option string) (type : string) (m : MediaObject) :
  GenericDetector.detect_stage doc candidates extract type = Some m ->
  isValidMediaUrl (mo_url m) = true.
Proof.
  unfold GenericDetector.detect_stage. intros H.
  destruct candidates; [discriminate|].
  destruct (filterElements _); [discriminate|].
  destruct (array_sort _ _) as [|winner sorted]; [discriminate|].
  destruct (extract _) as [url|]; [|discriminate].
  destruct (isValidMediaUrl url) eqn:Hvalid;
    [|rewrite andb_false_r in H; discriminate].
  destruct (negb (String.eqb url "")); [|discriminate].
  injection H as <-. now rewrite createMediaObject_url.
Qed.

Lemma generic_detectHeroMedia_valid (doc : Document) (m : MediaObject) :
  In m (GenericDetector.detectHeroMedia doc) -> isValidMediaUrl (mo_url m) = true.
Proof.
  unfold GenericDetector.detectHeroMedia, GenericDetector.detectHeroVideo,
    GenericDetector.detectHeroImage, GenericDetector.detectHeroBackgroundImage.
  destruct (prioritizeVideos (generic CONFIG)).
  - destruct (GenericDetector.detect_stage doc (getAllVideos doc) _ _) eqn:Hv.
    { intros [<-|[]]. eapply detect_stage_valid, Hv. }
    destruct (GenericDetector.detect_stage doc (getAllImages doc) _ _) eqn:Hi.
    { intros [<-|[]]. eapply detect_stage_valid, Hi. }
    destruct (GenericDetector.detect_stage doc
                (getElementsWithBackgroundImages doc) _ _) eqn:Hb.
    { intros [<-|[]]. eapply detect_stage_valid, Hb. }
    intros [].
  - destruct (GenericDetector.detect_stage doc (getAllImages doc) _ _) eqn:Hi.
    { intros [<-|[]]. eapply detect_stage_valid, Hi. }
    destruct (GenericDetector.detect_stage doc
                (getElementsWithBackgroundImages doc) _ _) eqn:Hb.
    { intros [<-|[]]. eapply detect_stage_valid, Hb. }
    intros [].
Qed.

End MediaObjectFacts.

(** ** The carousel *)

Section KeepFirstFacts.
Import Reference.

Lemma filter_filter_bool {A} (f g : A -> bool) (l : list A) :
  List.filter f (List.filter g l) = List.filter (fun x => g x && f x) l.
Proof.
  induction l as [|x l IH]; simpl; [reflexivity|].
  destruct (g x); simpl; [destruct (f x)|]; now rewrite IH.
Qed.

Lemma In_keep_first (x : string) (l : list string) :
  In x (keep_first l) <-> In x l.
Proof.
  induction l as [|y l IH]; simpl; [tauto|].
  rewrite filter_In, IH.
  destruct (String.eqb_spec x y) as [->|Hne]; simpl; [tauto|].
  split; [tauto|]. intros [->|H]; [contradiction|tauto].
Qed.

Lemma NoDup_filter_bool {A} (f : A -> bool) (l : list A) :
  NoDup l -> NoDup (List.filter f l).
Proof.
  induction 1 as [|x l Hx Hl IH]; simpl; [constructor|].
  destruct (f x); [|assumption].
  constructor; [|assumption].
  rewrite list_elem_of_In, filter_In, <- list_elem_of_In. tauto.
Qed.

Lemma NoDup_keep_first (l : list string) : NoDup (keep_first l).
Proof.
  induction l as [|x l IH]; simpl; constructor.
  - rewrite list_elem_of_In, filter_In. intros [_ H].
    now rewrite String.eqb_refl in H.
  - now apply NoDup_filter_bool.
Qed.

(** [keep_first] keeps one string of each value. *)
Lemma length_keep_first (l : list string) :
  List.length (keep_first l) = distinct l.
Proof.
  unfold distinct.
  rewrite <- (size_list_to_set (C := gset string) (keep_first l))
    by apply NoDup_keep_first.
  f_equal. apply set_eq. intros x.
  rewrite !elem_of_list_to_set, !list_elem_of_In. apply In_keep_first.
Qed.

End KeepFirstFacts.

Section CollectFacts.
Import JsString MediaExtractor Reference InstagramDetector.

Variable doc : Document.

(** What the two loops have in common: [qualify] gives the URL of an
    element that is taken, [type] is the kind of media object made. *)
Variable qualify : Element -> option string.
Variable type : string.
Variable step : Collect -> Element -> Collect.

Hypothesis qualify_valid :
  forall e url, qualify e = Some url -> isValidMediaUrl url = true.

Hypothesis step_unfold :
  forall seen mediaList e,
    step (seen, mediaList) e
    = match qualify e with
      | Some url =>
          if bool_decide (url ∈ seen) then (seen, mediaList)
          else ({[ url ]} ∪ seen,
                mediaList
                ++ [createMediaObject doc (stamps doc (List.length mediaList))
                      url type e 0%float])
      | None => (seen, mediaList)
      end.

Lemma fold_collect (es : list Element) (seen : gset string)
    (mediaList : list MediaObject) :
  exists seen' news,
    fold_left step es (seen, mediaList) = (seen', mediaList ++ news)
    /\ Forall2 (made_for doc type) news
         (List.filter (fun u => negb (bool_decide (u ∈ seen)))
                      (keep_first (omap qualify es))).
Proof.
  revert seen mediaList.
  induction es as [|e es IH]; intros seen mediaList.
  - exists seen, []. simpl. rewrite app_nil_r. split; [reflexivity|constructor].
  - simpl fold_left. rewrite step_unfold. simpl omap.
    destruct (qualify e) as [url|] eqn:Hq; simpl; [|apply IH].
    rewrite filter_filter_bool.
    destruct (bool_decide_reflect (url ∈ seen)) as [Hin|Hnotin]; simpl.
    + destruct (IH seen mediaList) as (seen' & news & Hfold & Hnews).
      exists seen', news. split; [exact Hfold|].
      erewrite filter_ext; [exact Hnews|].
      intros u. simpl. destruct (String.eqb_spec u url) as [->|_]; simpl;
        [|reflexivity].
      now rewrite bool_decide_eq_true_2.
    + destruct (IH ({[ url ]} ∪ seen)
                  (mediaList
                   ++ [createMediaObject doc (stamps doc (List.length mediaList))
                         url type e 0%float]))
        as (seen' & news & Hfold & Hnews).
      exists seen', (createMediaObject doc (stamps doc (List.length mediaList))
                       url type e 0%float :: news).
      split; [rewrite Hfold; now rewrite <- app_assoc|].
      constructor.
      * exists (stamps doc (List.length mediaList)), e.
        split; [now apply (qualify_valid e)|reflexivity].
      * erewrite filter_ext; [exact Hnews|].
        intros u. simpl.
        destruct (String.eqb_spec u url) as [->|Hne]; simpl.
        -- rewrite bool_decide_eq_true_2; [reflexivity|].
           apply elem_of_union_l. now apply elem_of_singleton.
        -- destruct (bool_decide_reflect (u ∈ seen)) as [H|H].
           ++ rewrite bool_decide_eq_true_2; [reflexivity|].
              now apply elem_of_union_r.
           ++ rewrite bool_decide_eq_false_2; [reflexivity|].
              rewrite elem_of_union, elem_of_singleton. tauto.
Qed.

End CollectFacts.

Section CarouselFacts.
Import JsString MediaExtractor Reference InstagramDetector.

Lemma collect_image_unfold (doc : Document) (seen : gset string)
    (mediaList : list MediaObject) (img : Element) :
  collect_image doc (seen, mediaList) img
  = match qualifying_image_url doc img with
    | Some url =>
        if bool_decide (url ∈ seen) then (seen, mediaList)
        else ({[ url ]} ∪ seen,
              mediaList
              ++ [createMediaObject doc (stamps doc (List.length mediaList))
                    url "image" img 0%float])
    | None => (seen, mediaList)
    end.
Proof.
  unfold collect_image, qualifying_image_url.
  destruct (isProfilePicture img || isUIElement img); [reflexivity|].
  destruct (extractImageUrl (location doc) img) as [url|]; [|reflexivity].
  destruct (isValidMediaUrl url) eqn:Hvalid.
  - rewrite (isValidMediaUrl_nonempty url Hvalid). simpl.
    now destruct (bool_decide (url ∈ seen)).
  - now rewrite andb_false_r.
Qed.

Lemma collect_video_unfold (doc : Document) (seen : gset string)
    (mediaList : list MediaObject) (video : Element) :
  collect_video doc (seen, mediaList) video
  = match qualifying_video_url doc video with
    | Some url =>
        if bool_decide (url ∈ seen) then (seen, mediaList)
        else ({[ url ]} ∪ seen,
              mediaList
              ++ [createMediaObject doc (stamps doc (List.length mediaList))
                    url "video" video 0%float])
    | None => (seen, mediaList)
    end.
Proof.
  unfold collect_video, qualifying_video_url.
  destruct (extractVideoUrl (location doc) video) as [url|]; [|reflexivity].
  destruct (isValidMediaUrl url) eqn:Hvalid.
  - rewrite (isValidMediaUrl_nonempty url Hvalid). simpl.
    now destruct (bool_decide (url ∈ seen)).
  - now rewrite andb_false_r.
Qed.

Lemma qualifying_image_url_valid (doc : Document) (img : Element) (url : string) :
  qualifying_image_url doc img = Some url -> isValidMediaUrl url = true.
Proof.
  unfold qualifying_image_url.
  destruct (_ || _); [discriminate|].
  destruct (extractImageUrl _ _) as [u|]; [|discriminate].
  destruct (isValidMediaUrl u) eqn:H; [|discriminate]. now intros [= <-].
Qed.

Lemma qualifying_video_url_valid (doc : Document) (video : Element) (url : string) :
  qualifying_video_url doc video = Some url -> isValidMediaUrl url = true.
Proof.
  unfold qualifying_video_url.
  destruct (extractVideoUrl _ _) as [u|]; [|discriminate].
  destruct (isValidMediaUrl u) eqn:H; [|discriminate]. now intros [= <-].
Qed.

Lemma filter_not_in_empty (l : list string) :
  List.filter (fun u => negb (bool_decide (u ∈ (∅ : gset string)))) l = l.
Proof.
  induction l as [|x l IH]; cbn [List.filter]; [reflexivity|].
  rewrite bool_decide_eq_false_2 by apply not_elem_of_empty.
  cbn [negb]. now rewrite IH.
Qed.

(** [mediaList] after the two loops: the images, one for each distinct
    image URL, followed by the videos, one for each distinct video URL. *)
Lemma carousel_mediaList_spec (doc : Document) (article : list Element) :
  exists images videos,
    carousel_mediaList doc article = images ++ videos
    /\ Forall2 (made_for doc "image") images (keep_first (image_urls doc article))
    /\ Forall2 (made_for doc "video") videos (keep_first (video_urls doc article)).
Proof.
  unfold carousel_mediaList, image_urls, video_urls.
  destruct (fold_collect doc (qualifying_image_url doc) "image" (collect_image doc)
              (qualifying_image_url_valid doc) (collect_image_unfold doc)
              (List.filter is_img_with_srcset article) ∅ [])
    as (seen1 & images & -> & Himages).
  destruct (fold_collect doc (qualifying_video_url doc) "video" (collect_video doc)
              (qualifying_video_url_valid doc) (collect_video_unfold doc)
              (List.filter is_video article) ∅ ([] ++ images))
    as (seen2 & videos & -> & Hvideos).
  rewrite filter_not_in_empty in Himages, Hvideos.
  exists images, videos. simpl. repeat split; assumption.
Qed.

Lemma made_for_urls (doc : Document) (type : string) (l : list MediaObject)
    (urls : list string) :
  Forall2 (made_for doc type) l urls -> map mo_url l = urls.
Proof.
  induction 1 as [|m url l urls (st & e & Hvalid & ->) _ IH]; simpl;
    [reflexivity|].
  rewrite IH. f_equal. now apply makeAbsoluteUrl_http, isValidMediaUrl_inv.
Qed.

Lemma map_url_number_item (total : nat) (l : list MediaObject) :
  map mo_url (imap (number_item total) l) = map mo_url l.
Proof.
  change (map mo_url (imap (number_item total) l)) with
    (mo_url <$> imap (number_item total) l).
  rewrite fmap_imap. apply imap_const.
Qed.

Lemma carousel_urls (doc : Document) (art : list Element) :
  article doc = Some art ->
  map mo_url (detectCarousel doc)
  = take (maxCarouselItems (instagram CONFIG))
         (keep_first (image_urls doc art) ++ keep_first (video_urls doc art)).
Proof.
  intros Hart. unfold detectCarousel, carousel_limited. rewrite Hart.
  rewrite map_url_number_item.
  destruct (carousel_mediaList_spec doc art) as (images & videos & -> & Hi & Hv).
  change (map mo_url (take ?n ?l)) with (mo_url <$> take n l).
  rewrite fmap_take. f_equal.
  change (mo_url <$> images ++ videos) with (map mo_url (images ++ videos)).
  rewrite map_app. now rewrite (made_for_urls _ _ _ _ Hi), (made_for_urls _ _ _ _ Hv).
Qed.

(** C3, as amended: the URLs of a carousel are those of the qualifying
    images with a srcset, in document order and one for each distinct
    image URL, followed by those of the qualifying videos, in document
    order and one for each distinct video URL, cut after
    maxCarouselItems. The two kinds have separate sets of seen URLs, so
    the length is at most the number of distinct image URLs plus the
    number of distinct video URLs, and at most maxCarouselItems. *)
Theorem carousel_deduplicated_per_kind (doc : Document) (art : list Element) :
  article doc = Some art ->
  map mo_url (detectCarousel doc)
  = take (maxCarouselItems (instagram CONFIG))
         (keep_first (image_urls doc art) ++ keep_first (video_urls doc art))
  /\ NoDup (keep_first (image_urls doc art))
  /\ NoDup (keep_first (video_urls doc art))
  /\ (forall u, In u (keep_first (image_urls doc art)) <-> In u (image_urls doc art))
  /\ (forall u, In u (keep_first (video_urls doc art)) <-> In u (video_urls doc art))
  /\ (List.length (detectCarousel doc) <= maxCarouselItems (instagram CONFIG))%nat
  /\ (List.length (detectCarousel doc)
      <= distinct (image_urls doc art) + distinct (video_urls doc art))%nat.
Proof.
  intros Hart. pose proof (carousel_urls doc art Hart) as Hurls.
  assert (Hlen : List.length (detectCarousel doc)
                 = List.length (take (maxCarouselItems (instagram CONFIG))
                                  (keep_first (image_urls doc art)
                                   ++ keep_first (video_urls doc art)))).
  { rewrite <- Hurls. now rewrite length_map. }
  repeat split; try apply NoDup_keep_first; try apply In_keep_first.
  - exact Hurls.
  - rewrite Hlen, length_take. lia.
  - rewrite Hlen, length_take, length_app, !length_keep_first. lia.
Qed.

(** Witness of C3: of the four entries three stay, the images first. *)
Lemma carousel_deduplicated_per_kind_witness :
  map mo_url (detectCarousel example_carousel)
  = [ "https://cdn.example.com/p/one.jpg";
      "https://cdn.example.com/p/two.jpg";
      "https://cdn.example.com/p/clip.mp4" ]
  /\ (List.length (detectCarousel example_carousel)
      <= distinct (image_urls example_carousel
                     (default [] (article example_carousel)))
         + distinct (video_urls example_carousel
                       (default [] (article example_carousel))))%nat.
Proof.
  destruct (carousel_deduplicated_per_kind example_carousel
              (default [] (article example_carousel)) eq_refl)
    as (Hurls & _ & _ & _ & _ & _ & Hlen).
  split; [rewrite Hurls; vm_compute; reflexivity | exact Hlen].
Defined.

(** Counterexample to C3 as stated: two entries resolve to one URL, and
    both are in the output, because the image loop and the video loop do
    not share their sets of seen URLs. *)
Lemma carousel_longer_than_distinct_urls :
  carousel_urls_of shared_url_carousel (default [] (article shared_url_carousel))
  = [ "https://cdn.example.com/p/clip.mp4"; "https://cdn.example.com/p/clip.mp4" ]
  /\ distinct (carousel_urls_of shared_url_carousel
                 (default [] (article shared_url_carousel))) = 1%nat
  /\ map mo_url (detectCarousel shared_url_carousel)
     = [ "https://cdn.example.com/p/clip.mp4"; "https://cdn.example.com/p/clip.mp4" ]
  /\ ~ (List.length (detectCarousel shared_url_carousel)
        <= distinct (carousel_urls_of shared_url_carousel
                       (default [] (article shared_url_carousel))))%nat.
Proof.
  repeat split; try (vm_compute; reflexivity).
  vm_compute. lia.
Qed.

(** What the numbering does to a file name that has a dot. *)
Lemma addPositionToFilename_dot (filename : string) (position total : nat) :
  includes filename "." = true -> total <> 1%nat ->
  exists name extension,
    filename = name +:+ "." +:+ extension
    /\ includes extension "." = false
    /\ addPositionToFilename filename position total
       = name +:+ "_" +:+ of_nat position +:+ "." +:+ extension.
Proof.
  intros Hdot Htotal.
  assert (Hlast : 0 <= lastIndexOf filename ".").
  { pose proof (lastIndexOf_lower_bound filename ".").
    destruct (Z.eq_dec (lastIndexOf filename ".") (-1)) as [Habs|]; [|lia].
    apply lastIndexOf_absent in Habs. congruence. }
  destruct (lastIndexOf_split filename "." Hlast) as (name & ext & Heq & Hext & Hlen).
  exists name, ext. split; [exact Heq|]. split; [now apply lastIndexOf_absent|].
  unfold addPositionToFilename.
  destruct (Nat.eqb_spec total 1) as [|_]; [contradiction|].
  destruct (Z.eqb_spec (lastIndexOf filename ".") (-1)) as [|_]; [lia|].
  rewrite substring_from_zero. unfold substringFrom.
  rewrite Hlen, Nat2Z.id. rewrite Heq at 1 2.
  now rewrite take_chars_exact, drop_chars_exact.
Qed.

(** Every media object made for a valid URL has a dot in its file name:
    the last path segment is taken only when it has one, and a generated
    name ends in a dot and an extension. *)
Lemma made_for_filename_dot (doc : Document) (type : string) (m : MediaObject)
    (url : string) :
  made_for doc type m url -> includes (mo_filename m) "." = true.
Proof.
  intros (st & e & Hvalid & ->). simpl. unfold extractFilenameFromUrl.
  rewrite (isValidMediaUrl_nonempty url Hvalid).
  assert (Hgen : includes (generateFilename (filename_now st) (filename_random st) url)
                   "." = true).
  { apply includes_spec. unfold generateFilename.
    exists ("media_" +:+ NilEmpty.string_of_int (Z.to_int (filename_now st))
            +:+ "_" +:+ substring (filename_random st) 2 6),
           (guessExtensionFromUrl url).
    now rewrite !append_assoc. }
  destruct (URL_pathname doc url) as [pathname|]; [|exact Hgen].
  destruct (negb _ && includes _ ".") eqn:Hcond; [|exact Hgen].
  now apply andb_true_iff in Hcond.
Qed.

Lemma Forall2_Forall_l {A B} (R : A -> B -> Prop) (P : A -> Prop)
    (l : list A) (k : list B) :
  (forall x y, R x y -> P x) -> Forall2 R l k -> Forall P l.
Proof. intros HR. induction 1; constructor; eauto. Qed.

Lemma carousel_limited_filenames (doc : Document) (art : list Element) :
  Forall (fun m => includes (mo_filename m) "." = true) (carousel_limited doc art).
Proof.
  unfold carousel_limited.
  destruct (carousel_mediaList_spec doc art) as (images & videos & -> & Hi & Hv).
  apply Forall_take, Forall_app. split.
  - eapply Forall2_Forall_l; [|exact Hi]. apply made_for_filename_dot.
  - eapply Forall2_Forall_l; [|exact Hv]. apply made_for_filename_dot.
Qed.

Lemma map_position_number_item (total : nat) (l : list MediaObject) (k : nat) :
  map mo_position (imap (fun i => number_item total (k + i)) l)
  = map Some (seq (k + 1) (List.length l)).
Proof.
  revert k. induction l as [|m l IH]; intros k; [reflexivity|].
  rewrite imap_cons. simpl. f_equal; [f_equal; lia|].
  specialize (IH (S k)). simpl in IH. rewrite <- IH.
  f_equal. apply imap_ext. intros i x _. simpl. f_equal. lia.
Qed.

(** C4, as amended: the N items of a carousel carry the positions 1..N in
    extraction order and totalItems = N, for every N, N = 1 included; an
    item keeps the URL it was extracted with; with N = 1 the file name is
    left as it is, and with N > 1 the position is put, after an
    underscore, in front of the last dot of the file name. *)
Theorem carousel_numbering (doc : Document) (art : list Element) :
  article doc = Some art ->
  let limited := carousel_limited doc art in
  let total := List.length limited in
  List.length (detectCarousel doc) = total
  /\ map mo_position (detectCarousel doc) = map Some (seq 1 total)
  /\ Forall (fun m => mo_totalItems m = Some total) (detectCarousel doc)
  /\ (forall (i : nat) (m : MediaObject),
        limited !! i = Some m ->
        exists m',
          detectCarousel doc !! i = Some m'
          /\ mo_url m' = mo_url m
          /\ (total = 1%nat -> mo_filename m' = mo_filename m)
          /\ (total <> 1%nat ->
              exists name extension,
                mo_filename m = name +:+ "." +:+ extension
                /\ includes extension "." = false
                /\ mo_filename m'
                   = name +:+ "_" +:+ of_nat (i + 1) +:+ "." +:+ extension)).
Proof.
  intros Hart limited total. unfold detectCarousel. rewrite Hart.
  fold limited. fold total. repeat split.
  - apply length_imap.
  - exact (map_position_number_item total limited 0).
  - apply Forall_forall. intros m' Hin.
    apply elem_of_lookup_imap_1 in Hin as (i & m & -> & _). reflexivity.
  - intros i m Hi. exists (number_item total i m).
    rewrite list_lookup_imap, Hi. repeat split.
    + intros Htotal. simpl. unfold addPositionToFilename. now rewrite Htotal.
    + intros Htotal. simpl. apply addPositionToFilename_dot; [|exact Htotal].
      pose proof (carousel_limited_filenames doc art) as Hall.
      rewrite Forall_forall in Hall. apply Hall.
      eapply list_elem_of_lookup_2, Hi.
Qed.

(** Witness of C4: the three items of the example carousel. *)
Lemma carousel_numbering_witness :
  map mo_position (detectCarousel example_carousel)
  = [Some 1%nat; Some 2%nat; Some 3%nat]
  /\ map mo_filename (detectCarousel example_carousel)
     = ["one_1.jpg"; "two_2.jpg"; "clip_3.mp4"].
Proof.
  destruct (carousel_numbering example_carousel
              (default [] (article example_carousel)) eq_refl)
    as (_ & Hpos & _).
  split; [rewrite Hpos; vm_compute; reflexivity | vm_compute; reflexivity].
Defined.

(** Counterexample to C4 as stated: the only item of a carousel of one is
    given position 1 and totalItems 1 all the same; only its file name is
    left without a suffix. *)
Lemma single_item_carousel_is_numbered :
  List.length (detectCarousel single_item_carousel) = 1%nat
  /\ map mo_position (detectCarousel single_item_carousel) = [Some 1%nat]
  /\ map mo_totalItems (detectCarousel single_item_carousel) = [Some 1%nat]
  /\ map mo_filename (detectCarousel single_item_carousel) = ["one.jpg"]
  /\ ~ Forall (fun m => mo_position m = None /\ mo_totalItems m = None)
        (detectCarousel single_item_carousel).
Proof.
  repeat split; try (vm_compute; reflexivity).
  intros H. apply Forall_forall with (x := number_item 1 0
    (createMediaObject single_item_carousel example_stamp
       "https://cdn.example.com/p/one.jpg" "image"
       (example_img (Some "https://cdn.example.com/p/one.jpg 1080w")
          "https://cdn.example.com/p/one.jpg" 1080 1080 (rect_at 400 100 600 600))
       0%float)) in H.
  - destruct H as [H _]. discriminate.
  - vm_compute. left.
Qed.

End CarouselFacts.

(** ** Validity of the detected URLs *)

Section DetectedUrlFacts.
Import JsString MediaExtractor Reference InstagramDetector.

Lemma single_video_valid (doc : Document) (video : Element) (m : MediaObject) :
  In m (match extractVideoUrl (location doc) video with
        | Some url =>
            if negb (String.eqb url "") && isValidMediaUrl url
            then [createMediaObject doc (stamps doc 0%nat) url "video" video 0%float]
            else []
        | None => []
        end) ->
  isValidMediaUrl (mo_url m) = true.
Proof.
  destruct (extractVideoUrl _ _) as [url|]; [|intros []].
  destruct (isValidMediaUrl url) eqn:Hvalid;
    [|rewrite andb_false_r; intros []].
  destruct (negb _); [|intros []].
  intros [<-|[]]. now rewrite createMediaObject_url.
Qed.

Lemma first_image_valid (doc : Document) (images : list Element) (m : MediaObject) :
  In m (first_image doc images) -> isValidMediaUrl (mo_url m) = true.
Proof.
  induction images as [|img rest IH]; simpl; [intros []|].
  destruct (isProfilePicture img || isUIElement img); [exact IH|].
  destruct (extractImageUrl _ _) as [url|]; [|exact IH].
  destruct (isValidMediaUrl url) eqn:Hvalid;
    [|rewrite andb_false_r; exact IH].
  destruct (negb _); [|exact IH].
  intros [<-|[]]. now rewrite createMediaObject_url.
Qed.

Lemma detectCarousel_valid (doc : Document) (m : MediaObject) :
  In m (detectCarousel doc) -> isValidMediaUrl (mo_url m) = true.
Proof.
  intros Hin. destruct (article doc) as [art|] eqn:Hart;
    [|unfold detectCarousel in Hin; rewrite Hart in Hin; destruct Hin].
  apply (in_map mo_url) in Hin. rewrite (carousel_urls doc art Hart) in Hin.
  apply list_elem_of_In, elem_of_take in Hin as (i & Hin & _).
  apply list_elem_of_lookup_2, list_elem_of_In, in_app_or in Hin.
  unfold image_urls, video_urls in Hin.
  destruct Hin as [Hin|Hin];
    rewrite In_keep_first, <- list_elem_of_In, list_elem_of_omap in Hin;
    destruct Hin as (e & _ & Hq).
  - eapply qualifying_image_url_valid, Hq.
  - eapply qualifying_video_url_valid, Hq.
Qed.

Lemma instagram_detectHeroMedia_valid (doc : Document) (m : MediaObject) :
  In m (InstagramDetector.detectHeroMedia doc) -> isValidMediaUrl (mo_url m) = true.
Proof.
  unfold InstagramDetector.detectHeroMedia.
  destruct (detectPostType doc).
  - apply detectCarousel_valid.
  - unfold detectVideo. destruct (article doc); [|intros []].
    destruct (List.filter is_video _); [intros []|]. apply single_video_valid.
  - unfold detectReel.
    destruct (List.filter _ (elements doc)); [intros []|]. apply single_video_valid.
  - unfold detectImage. destruct (article doc); [|intros []].
    apply first_image_valid.
  - intros [].
Qed.

(** C9: the URL of every media object that the generic detector or the
    Instagram detector returns is a non-empty string that starts with
    http:// or https://, does not start with data:, and has at most 2048
    characters; and a URL that starts with data:image/png;base64, is
    rejected by isValidMediaUrl whatever follows. *)
Theorem detected_url_valid (doc : Document) (m : MediaObject) :
  In m (GenericDetector.detectHeroMedia doc)
  \/ In m (InstagramDetector.detectHeroMedia doc) ->
  mo_url m <> ""
  /\ (startsWith (mo_url m) "http://" = true
      \/ startsWith (mo_url m) "https://" = true)
  /\ startsWith (mo_url m) "data:" = false
  /\ JsString.length (mo_url m) <= 2048
  /\ isValidMediaUrl (mo_url m) = true
  /\ (forall rest, isValidMediaUrl ("data:image/png;base64," +:+ rest) = false).
Proof.
  intros Hin.
  assert (Hvalid : isValidMediaUrl (mo_url m) = true).
  { destruct Hin as [Hin|Hin];
      [now apply (generic_detectHeroMedia_valid doc)
      |now apply (instagram_detectHeroMedia_valid doc)]. }
  destruct (isValidMediaUrl_inv _ Hvalid) as (Hne & Hhttp & Hdata & Hlen).
  split; [exact Hne|]. split; [now apply orb_true_iff|].
  split; [exact Hdata|]. split; [exact Hlen|]. split; [exact Hvalid|].
  apply isValidMediaUrl_data_url.
Qed.

(** Witness of C9: the second item of the example carousel. *)
Lemma detected_url_valid_witness :
  In example_second_item (InstagramDetector.detectHeroMedia example_carousel)
  /\ mo_url example_second_item = "https://cdn.example.com/p/two.jpg"
  /\ isValidMediaUrl (mo_url example_second_item) = true
  /\ JsString.length (mo_url example_second_item) <= 2048.
Proof.
  assert (Hin : In example_second_item
                  (InstagramDetector.detectHeroMedia example_carousel)).
  { vm_compute. right. left. reflexivity. }
  destruct (detected_url_valid example_carousel example_second_item (or_intror Hin))
    as (_ & _ & _ & Hlen & Hvalid & _).
  split; [exact Hin|]. split; [reflexivity|]. split; [exact Hvalid | exact Hlen].
Defined.

End DetectedUrlFacts.

(** ** The download queue *)

Section QueueFacts.
Import JsString MediaExtractor DownloadQueue QueueReference.

Variable tr : Transport.

Lemma requests_app (evs1 evs2 : list Event) :
  requests (evs1 ++ evs2) = requests evs1 ++ requests evs2.
Proof. apply omap_app. Qed.

(** A transfer that fails in every state of the transport fails as often
    as it is tried. *)
Lemma always_fails_attempts (media : MediaObject) (n : nat) (t : T tr) :
  always_fails tr media -> attempts_fail tr (request_for media) n t.
Proof.
  intros Hfails. revert t. induction n as [|n IH]; intros t; [exact I|].
  simpl. specialize (Hfails t).
  destruct (download tr (request_for media) t) as [[message|downloadId] t'];
    [apply IH|].
  destruct (terminal tr downloadId t') as [[|error|] t'']; simpl in Hfails;
    [contradiction|apply IH|apply IH].
Qed.

(** One failing attempt: exactly one transfer request, and an error. *)
Lemma attempt_once_fails (n : nat) (item : QueueItem) (w : World tr) :
  attempts_fail tr (request_for (qi_media item)) (S n) (transport w) ->
  exists error w' evs,
    attempt_once tr item w = (inl error, item, w')
    /\ log w' = log w ++ evs
    /\ requests evs = [request_for (qi_media item)]
    /\ attempts_fail tr (request_for (qi_media item)) n (transport w').
Proof.
  intros Hfails. unfold attempt_once, downloadFile.
  fold (request_for (qi_media item)). cbn [attempts_fail] in Hfails.
  destruct (download tr (request_for (qi_media item)) (transport w))
    as [[message|downloadId] t].
  - eexists _, _, [Requested _]. repeat split. exact Hfails.
  - unfold waitForDownload. cbn [transport log].
    destruct (terminal tr downloadId t) as [[|error|] t'] eqn:Hterm;
      [contradiction| |].
    + eexists _, _, [Requested _; Listened _]. cbn [transport log].
      rewrite <- app_assoc. repeat split. exact Hfails.
    + eexists _, _, [Requested _; Listened _]. cbn [transport log].
      rewrite <- app_assoc. repeat split. exact Hfails.
Qed.

(** The retry loop when the next [remaining + 1] attempts fail: one
    transfer request for each of them, then the error. *)
Lemma retry_loop_fails (remaining attempt : nat) (item : QueueItem) (w : World tr) :
  attempts_fail tr (request_for (qi_media item)) (S remaining) (transport w) ->
  exists error item' w' evs,
    retry_loop tr remaining attempt item w = (inl error, item', w')
    /\ log w' = log w ++ evs
    /\ requests evs = repeat (request_for (qi_media item)) (S remaining).
Proof.
  revert attempt item w.
  induction remaining as [|remaining IH]; intros attempt item w Hfails.
  - cbn [retry_loop].
    destruct (attempt_once_fails 0 (with_attempt attempt item) w Hfails)
      as (error & w' & evs & -> & Hlog & Hreq & _).
    exists error, (with_attempt attempt item), w', evs.
    repeat split; assumption.
  - cbn [retry_loop].
    destruct (attempt_once_fails (S remaining) (with_attempt attempt item) w Hfails)
      as (error & w1 & evs1 & -> & Hlog1 & Hreq1 & Hrest).
    destruct (IH (S attempt) (with_attempt attempt item)
                (sleep tr (retry_delay attempt) w1) Hrest)
      as (error' & item' & w' & evs & -> & Hlog & Hreq).
    exists error', item', w', (evs1 ++ [Slept (retry_delay attempt)] ++ evs).
    split; [reflexivity|]. split.
    + rewrite Hlog. cbn [sleep log]. rewrite Hlog1. now rewrite <- !app_assoc.
    + rewrite !requests_app, Hreq1, Hreq. reflexivity.
Qed.

Lemma downloadWithRetry_fails (item : QueueItem) (w : World tr) :
  attempts_fail tr (request_for (qi_media item))
    (1 + retryAttempts (downloads CONFIG)) (transport w) ->
  exists error item' w' evs,
    downloadWithRetry tr item w = (inl error, item', w')
    /\ log w' = log w ++ evs
    /\ requests evs
       = repeat (request_for (qi_media item)) (1 + retryAttempts (downloads CONFIG)).
Proof. apply retry_loop_fails. Qed.

(** The loop of [process] appends the results of the items to the
    results list and leaves the queue empty. *)
Lemma process_loop_run (items : list QueueItem) (this : State) (w : World tr) :
  process_loop tr items this w
  = ({| queue := match items with [] => queue this | _ => [] end;
        isProcessing := isProcessing this;
        currentDownload := match items with
                           | [] => currentDownload this
                           | _ => None
                           end;
        results := results this ++ fst (run_items tr items w) |},
     snd (run_items tr items w)).
Proof.
  revert this w. induction items as [|item rest IH]; intros this w.
  - simpl. rewrite app_nil_r. now destruct this.
  - simpl. unfold process_item, take_item.
    destruct (downloadWithRetry tr item w) as [[outcome item'] w1].
    rewrite IH. simpl. destruct (run_items tr rest w1) as [rs w2]. simpl.
    rewrite <- app_assoc. now destruct rest.
Qed.


(** One result for each item, in the order of the items. *)
Lemma run_items_media (items : list QueueItem) (w : World tr) :
  map res_media (fst (run_items tr items w)) = map qi_media items.
Proof.
  revert w. induction items as [|item rest IH]; intros w; [reflexivity|].
  simpl. destruct (downloadWithRetry tr item w) as [[outcome item'] w1] eqn:Hd.
  specialize (IH w1). destruct (run_items tr rest w1) as [rs w2].
  simpl in *. rewrite IH. f_equal.
  destruct outcome as [error|result]; [reflexivity|].
  (* a completed download reports the media of its item *)
  unfold downloadWithRetry in Hd.
  clear -Hd. revert Hd.
  generalize (retryAttempts (downloads CONFIG)) 0%nat item w.
  intros n. induction n as [|n IHn]; intros attempt it w0; simpl;
    unfold attempt_once;
    destruct (downloadFile tr _ _ w0) as [[e|downloadId] w0'];
    try destruct (waitForDownload tr downloadId w0') as [[e|[|]] w0''];
    simpl; try discriminate; try (intros [= <- _ _]; reflexivity);
    try (intros H; apply IHn in H; exact H).
Qed.

Lemma process_not_processing (this : State) (w : World tr) :
  isProcessing this = false ->
  process tr this w
  = (inr (fst (run_items tr (queue this) w)),
     {| queue := [];
        isProcessing := false;
        currentDownload := match queue this with
                           | [] => currentDownload this
                           | _ => None
                           end;
        results := fst (run_items tr (queue this) w) |},
     snd (run_items tr (queue this) w)).
Proof.
  intros Hidle. unfold process, process_enter. rewrite Hidle.
  cbn [queue isProcessing currentDownload results].
  rewrite process_loop_run. cbn [queue isProcessing currentDownload results fst snd].
  cbn [app]. now destruct (queue this).
Qed.

(** The state with which [process] enters its loop. *)
Lemma process_enter_idle (this armed : State) :
  process_enter this = inr armed ->
  isProcessing this = false /\ armed = started this.
Proof.
  unfold process_enter. destruct (isProcessing this); [discriminate|].
  intros [= <-]. auto.
Qed.

(** The flag that [process] sets in front of its loop stays set all
    through the loop. *)
Lemma in_progress_flag (this mid : State) (w : World tr) :
  in_progress tr this w mid -> isProcessing mid = true.
Proof.
  intros (armed & before & item & behind & retryCount & status
          & Henter & _ & ->).
  apply process_enter_idle in Henter as [_ ->].
  rewrite process_loop_run. reflexivity.
Qed.

(** C6: take a call of process that has passed its guard and is under
    way: some items are done and the download of the next one is awaited.
    The instance then has its flag set, and a second call of process,
    whatever the host state it comes in, fails at once with the error
    Queue is already being processed; the instance (its pending queue, its
    results list, its current download, its flag) and the host are left as
    they were: nothing is requested, nothing is queued. *)
Theorem process_rejects_second_call (this mid : State) (w w2 : World tr) :
  in_progress tr this w mid ->
  isProcessing mid = true
  /\ process_enter mid = inl "Queue is already being processed"
  /\ process tr mid w2 = (inl "Queue is already being processed", mid, w2).
Proof.
  intros Hmid. pose proof (in_progress_flag this mid w Hmid) as Hflag.
  split; [exact Hflag|]. unfold process, process_enter. now rewrite Hflag.
Qed.


End QueueFacts.

Section QueueExamples.
Import JsString MediaExtractor DownloadQueue QueueReference.

Lemma broken_media_always_fails : always_fails example_transport broken_media.
Proof. intros t. exact I. Qed.

(** Witness of C6: a second call while the second of the three example
    items is being retried. *)
Lemma process_rejects_second_call_witness :
  in_progress example_transport example_queue example_world busy_queue
  /\ isProcessing busy_queue = true
  /\ List.length (queue busy_queue) = 1%nat
  /\ List.length (results busy_queue) = 1%nat
  /\ process example_transport busy_queue example_world
     = (inl "Queue is already being processed", busy_queue, example_world).
Proof.
  assert (Hmid : in_progress example_transport example_queue example_world
                   busy_queue).
  { exists (started example_queue),
      [example_item (example_media "https://example.com/image1.jpg" "image1.jpg")],
      (example_item broken_media),
      [example_item (example_media "https://example.com/image3.jpg" "image3.jpg")],
      2%nat, downloading.
    repeat split. }
  destruct (process_rejects_second_call example_transport example_queue busy_queue
              example_world example_world Hmid)
    as (Hflag & _ & Hcall).
  split; [exact Hmid|]. split; [exact Hflag|].
  split; [reflexivity|]. split; [reflexivity|exact Hcall].
Defined.


End QueueExamples.

(** ** Agreement with the unit tests of the repository *)

Section UnitTests.
Import JsString MediaExtractor DomAnalyzer Reference.
#[local] Open Scope float_scope.

Example makeAbsoluteUrl_absolute :
  makeAbsoluteUrl example_location "https://cdn.example.com/image.jpg"
  = "https://cdn.example.com/image.jpg".
Proof. reflexivity. Qed.

Example makeAbsoluteUrl_protocol_relative :
  makeAbsoluteUrl example_location "//cdn.example.com/image.jpg"
  = "https://cdn.example.com/image.jpg".
Proof. reflexivity. Qed.

Example makeAbsoluteUrl_absolute_path :
  makeAbsoluteUrl example_location "/images/photo.jpg"
  = "https://example.com/images/photo.jpg".
Proof. reflexivity. Qed.

Example makeAbsoluteUrl_relative_path :
  makeAbsoluteUrl example_location "images/photo.jpg"
  = "https://example.com/page/images/photo.jpg".
Proof. reflexivity. Qed.

Example makeAbsoluteUrl_empty : makeAbsoluteUrl example_location "" = "".
Proof. reflexivity. Qed.

Example srcset_highest_resolution :
  getHighestResolutionFromSrcset "img-320.jpg 320w, img-640.jpg 640w, img-1920.jpg 1920w"
  = Some "img-1920.jpg".
Proof. reflexivity. Qed.

Example srcset_mixed_descriptors :
  getHighestResolutionFromSrcset
    "small.jpg 320w, medium.jpg 640w, large.jpg 1280w, xlarge.jpg 2560w"
  = Some "xlarge.jpg".
Proof. reflexivity. Qed.

Example srcset_single_entry :
  getHighestResolutionFromSrcset "image.jpg 1920w" = Some "image.jpg".
Proof. reflexivity. Qed.

Example srcset_empty : getHighestResolutionFromSrcset "" = None.
Proof. reflexivity. Qed.

Example srcset_without_width_descriptors :
  getHighestResolutionFromSrcset "image1.jpg, image2.jpg" = Some "image1.jpg".
Proof. reflexivity. Qed.

Example extractImageUrl_from_srcset :
  extractImageUrl example_location
    (example_img (Some "image-320.jpg 320w, image-640.jpg 640w, image-1280.jpg 1280w")
       "image-320.jpg" 0 0 (rect_at 0 0 0 0))
  = Some "https://example.com/page/image-1280.jpg".
Proof. reflexivity. Qed.

Example extractImageUrl_from_src :
  extractImageUrl example_location
    (example_img None "https://example.com/image.jpg" 0 0 (rect_at 0 0 0 0))
  = Some "https://example.com/image.jpg".
Proof. reflexivity. Qed.

Example extractImageUrl_nothing :
  extractImageUrl example_location (example_img None "" 0 0 (rect_at 0 0 0 0)) = None.
Proof. reflexivity. Qed.

Example extractFilenameFromUrl_last_segment :
  extractFilenameFromUrl (example_document [] []) example_stamp
    "https://example.com/photo.jpg?size=large"
  = "photo.jpg".
Proof. reflexivity. Qed.

Example extractFilenameFromUrl_generated :
  extractFilenameFromUrl (example_document [] []) example_stamp
    "https://example.com/images/"
  = "media_1700000000000_k3x9.jpg".
Proof. reflexivity. Qed.

Example extractFilenameFromUrl_empty :
  extractFilenameFromUrl (example_document [] []) example_stamp "" = "media".
Proof. reflexivity. Qed.

Example guessExtension_known :
  map guessExtensionFromUrl
    ["photo.png"; "photo.gif"; "photo.webp"; "video.mp4"; "video.webm"; "video.mov";
     "photo"; ""; "PHOTO.PNG"; "VIDEO.MP4"]
  = ["png"; "gif"; "webp"; "mp4"; "webm"; "mov"; "jpg"; "jpg"; "png"; "mp4"].
Proof. reflexivity. Qed.

Example isValidMediaUrl_cases :
  map isValidMediaUrl
    ["http://example.com/image.jpg"; "https://example.com/image.jpg";
     "data:image/png;base64,abc123"; "ftp://example.com/image.jpg";
     "file:///path/to/image.jpg"; ""]
  = [true; true; false; false; false; false].
Proof. reflexivity. Qed.

Example calculateQualityBonus_bands :
  map calculateQualityBonus [2048; 3840; 1920; 1600; 1280; 640]
  = [1.3; 1.3; 1.1; 1.1; 1.0; 1.0].
Proof. reflexivity. Qed.

Example background_image_url_forms :
  map match_url
    ["url(https://example.com/image.jpg)"; "url('https://example.com/image.jpg')";
     "none"]
  = [Some "https://example.com/image.jpg"; Some "https://example.com/image.jpg";
     None].
Proof. reflexivity. Qed.

End UnitTests.

(** ** More on the download queue *)

Section QueueMoreFacts.
Import JsString MediaExtractor DownloadQueue QueueReference QueueScenarios.

Variable tr : Transport.

Lemma sleeps_app (evs1 evs2 : list Event) :
  sleeps (evs1 ++ evs2) = sleeps evs1 ++ sleeps evs2.
Proof. apply omap_app. Qed.

Lemma listens_app (evs1 evs2 : list Event) :
  listens (evs1 ++ evs2) = listens evs1 ++ listens evs2.
Proof. apply omap_app. Qed.

(** What one attempt does in general: one transfer request, at most one
    wait, no pause; the media object of a result is that of the item. *)
Lemma attempt_once_log (item : QueueItem) (w : World tr) :
  exists evs,
    log (snd (attempt_once tr item w)) = log w ++ evs
    /\ requests evs = [request_for (qi_media item)]
    /\ sleeps evs = []
    /\ (List.length (listens evs) <= 1)%nat.
Proof.
  unfold attempt_once, downloadFile. fold (request_for (qi_media item)).
  destruct (download tr (request_for (qi_media item)) (transport w))
    as [[message|downloadId] t].
  - exists [Requested (request_for (qi_media item))]. cbn. repeat split. lia.
  - unfold waitForDownload. cbn [transport log].
    exists [Requested (request_for (qi_media item)); Listened downloadId].
    destruct (terminal tr downloadId t) as [[|error|] t']; cbn [snd log];
      rewrite <- app_assoc; repeat split; cbn; lia.
Qed.

Lemma attempt_once_item (item : QueueItem) (w : World tr) :
  qi_media (snd (fst (attempt_once tr item w))) = qi_media item
  /\ qi_retryCount (snd (fst (attempt_once tr item w))) = qi_retryCount item
  /\ match fst (fst (attempt_once tr item w)) with
     | inr result =>
         qi_status (snd (fst (attempt_once tr item w))) = completed
         /\ exists downloadId, result = completed_result (qi_media item) downloadId
     | inl _ => snd (fst (attempt_once tr item w)) = item
     end.
Proof.
  unfold attempt_once.
  destruct (downloadFile tr _ _ w) as [[error|downloadId] w1]; [now cbn|].
  destruct (waitForDownload tr downloadId w1) as [[error|[|]] w2]; cbn;
    repeat split; eauto.
Qed.








(** What the retry loop asks of the host whatever the transport answers:
    between one and [remaining + 1] transfer requests, all for the item,
    one pause less than requests, at most one wait for each request. *)
Lemma retry_loop_log (remaining attempt : nat) (item : QueueItem) (w : World tr) :
  exists evs n,
    log (snd (retry_loop tr remaining attempt item w)) = log w ++ evs
    /\ requests evs = repeat (request_for (qi_media item)) n
    /\ (1 <= n <= S remaining)%nat
    /\ List.length (sleeps evs) = (n - 1)%nat
    /\ (List.length (listens evs) <= n)%nat.
Proof.
  revert attempt item w.
  induction remaining as [|remaining IH]; intros attempt item w.
  - cbn [retry_loop].
    destruct (attempt_once_log (with_attempt attempt item) w)
      as (evs & Hlog & Hreq & Hsleep & Hlisten).
    destruct (attempt_once tr (with_attempt attempt item) w) as [[[e|r] i] w1];
      cbn [snd] in *; exists evs, 1%nat; rewrite Hsleep; repeat split;
        (assumption || lia).
  - cbn [retry_loop].
    destruct (attempt_once_log (with_attempt attempt item) w)
      as (evs1 & Hlog1 & Hreq1 & Hsleep1 & Hlisten1).
    pose proof (attempt_once_item (with_attempt attempt item) w) as (_ & _ & Hitem).
    destruct (attempt_once tr (with_attempt attempt item) w) as [[[e|r] i] w1];
      cbn [fst snd] in *.
    + subst i.
      destruct (IH (S attempt) (with_attempt attempt item)
                  (sleep tr (retry_delay attempt) w1))
        as (evs & n & Hlog & Hreq & Hn & Hsleep & Hlisten).
      exists (evs1 ++ [Slept (retry_delay attempt)] ++ evs), (S n).
      rewrite Hlog. cbn [sleep log]. rewrite Hlog1.
      rewrite !requests_app, !sleeps_app, !listens_app, Hreq1, Hreq, Hsleep1.
      rewrite !length_app, Hsleep. cbn. rewrite <- !app_assoc.
      repeat split; lia.
    + exists evs1, 1%nat. rewrite Hsleep1. repeat split; (assumption || lia).
Qed.

(** A download that is not given up ends as completed, with a transfer id. *)
Lemma retry_loop_result (remaining attempt : nat) (item : QueueItem) (w : World tr)
    (result : DownloadResult) :
  fst (fst (retry_loop tr remaining attempt item w)) = inr result ->
  exists downloadId, result = completed_result (qi_media item) downloadId.
Proof.
  revert attempt item w.
  induction remaining as [|remaining IH]; intros attempt item w; cbn [retry_loop];
    pose proof (attempt_once_item (with_attempt attempt item) w) as (_ & _ & Hitem);
    destruct (attempt_once tr (with_attempt attempt item) w) as [[[e|r] i] w1];
    cbn [fst snd] in *.
  - discriminate.
  - intros [= <-]. now destruct Hitem as [_ Hr].
  - subst i. intros H. now apply IH in H.
  - intros [= <-]. now destruct Hitem as [_ Hr].
Qed.

Lemma run_items_well_formed (items : list QueueItem) (w : World tr) :
  Forall well_formed_result (fst (run_items tr items w)).
Proof.
  revert w. induction items as [|item rest IH]; intros w; [constructor|].
  cbn [run_items].
  pose proof (retry_loop_result (retryAttempts (downloads CONFIG)) 0 item w) as Hres.
  fold (downloadWithRetry tr item w) in Hres.
  destruct (downloadWithRetry tr item w) as [[[error|result] item'] w1].
  - specialize (IH w1). destruct (run_items tr rest w1). constructor; [|exact IH].
    right. cbn. eauto.
  - specialize (IH w1). destruct (run_items tr rest w1). constructor; [|exact IH].
    destruct (Hres result eq_refl) as [downloadId ->]. left. cbn. eauto.
Qed.

Lemma length_filter_status (rs : list DownloadResult) :
  Forall well_formed_result rs ->
  (List.length (List.filter is_completed rs) + List.length (List.filter is_failed rs)
   = List.length rs)%nat.
Proof.
  induction 1 as [|r rs Hr _ IH]; [reflexivity|].
  cbn [List.filter].
  assert (Hflags : is_completed r = true /\ is_failed r = false
                   \/ is_completed r = false /\ is_failed r = true).
  { unfold is_completed, is_failed.
    destruct Hr as [(-> & _)|(-> & _)]; [left|right]; split; reflexivity. }
  destruct Hflags as [[-> ->]|[-> ->]]; cbn [List.length]; lia.
Qed.

(** The requests of a run, item after item. *)
Lemma run_items_log (items : list QueueItem) (w : World tr) :
  exists counts evs,
    log (snd (run_items tr items w)) = log w ++ evs
    /\ List.length counts = List.length items
    /\ Forall (fun n => (1 <= n <= 1 + retryAttempts (downloads CONFIG))%nat) counts
    /\ requests evs
       = concat (zip_with (fun item n => repeat (request_for (qi_media item)) n)
                          items counts)
    /\ (List.length items <= List.length (requests evs)
        <= (1 + retryAttempts (downloads CONFIG)) * List.length items)%nat
    /\ (List.length (listens evs) <= List.length (requests evs))%nat
    /\ (List.length (sleeps evs) + List.length items
        = List.length (requests evs))%nat.
Proof.
  revert w. induction items as [|item rest IH]; intros w.
  - exists [], []. cbn. rewrite app_nil_r. repeat split; (constructor || lia).
  - cbn [run_items].
    destruct (retry_loop_log (retryAttempts (downloads CONFIG)) 0 item w)
      as (evs1 & n & Hlog1 & Hreq1 & Hn & Hsleep1 & Hlisten1).
    fold (downloadWithRetry tr item w) in Hlog1.
    destruct (downloadWithRetry tr item w) as [[outcome item'] w1].
    cbn [snd] in Hlog1.
    destruct (IH w1) as (counts & evs & Hlog & Hlen & Hcounts & Hreq & Hbound
                         & Hlisten & Hsleep).
    destruct (run_items tr rest w1) as [rs w2]. cbn [snd] in *.
    exists (n :: counts), (evs1 ++ evs).
    rewrite Hlog, Hlog1, <- app_assoc.
    rewrite !requests_app, !listens_app, !sleeps_app, !length_app, Hreq1, Hreq.
    rewrite Hreq in Hbound, Hlisten, Hsleep.
    cbn [zip_with concat List.length]. rewrite ?length_app, !repeat_length.
    change (retryAttempts (downloads CONFIG)) with 3%nat in *.
    split; [reflexivity|]. split; [now rewrite Hlen|].
    split; [constructor; [lia|assumption]|]. split; [reflexivity|].
    repeat split; lia.
Qed.

(** Each result that completes reports the media of its item. *)
Lemma result_of_media (item item' : QueueItem) (w w' : World tr)
    (outcome : string + DownloadResult) :
  downloadWithRetry tr item w = (outcome, item', w') ->
  res_media (result_of item outcome) = qi_media item.
Proof.
  intros Hrun. destruct outcome as [error|result]; [reflexivity|].
  destruct (retry_loop_result (retryAttempts (downloads CONFIG)) 0 item w result)
    as [downloadId ->]; [|reflexivity].
  unfold downloadWithRetry in Hrun. now rewrite Hrun.
Qed.

(** C2: a call of process on an idle instance returns one result for
    each pending item, in the order of the queue, which is the order in
    which add appended the items, and leaves the queue empty. The result
    of an item is the outcome of its own download with retries, made in
    the host state that the downloads of the items in front have left:
    the completed result of the download, or a failed result with its
    last error. Every item is requested, at least once and at most
    1 + retryAttempts times, all the requests for an item coming before
    those for the next one, whatever the outcome of the items in front.
    With three items of which the second exhausts its retries, the
    results are that of the first item, the second as failed, and that of
    the third, whose download is made after the four failed attempts for
    the second. *)
Theorem process_results_in_order (this : State) (w : World tr) :
  isProcessing this = false ->
  exists rs this' w' counts evs,
    process tr this w = (inr rs, this', w')
    /\ rs = fst (run_items tr (queue this) w)
    /\ map res_media rs = map qi_media (queue this)
    /\ List.length rs = List.length (queue this)
    /\ queue this' = [] /\ results this' = rs /\ isProcessing this' = false
    /\ log w' = log w ++ evs
    /\ List.length counts = List.length (queue this)
    /\ Forall (fun n => (1 <= n <= 1 + retryAttempts (downloads CONFIG))%nat) counts
    /\ requests evs
       = concat (zip_with (fun item n => repeat (request_for (qi_media item)) n)
                          (queue this) counts)
    /\ (forall mediaItems sourceUrl,
          map qi_media (queue (add mediaItems sourceUrl this))
          = map qi_media (queue this) ++ mediaItems)
    /\ (forall item1 item2 item3 outcome1 item1' w1,
          queue this = [item1; item2; item3] ->
          downloadWithRetry tr item1 w = (outcome1, item1', w1) ->
          attempts_fail tr (request_for (qi_media item2))
            (1 + retryAttempts (downloads CONFIG)) (transport w1) ->
          exists error item2' w2 outcome3 item3' evs2 evs3 n3,
            downloadWithRetry tr item2 w1 = (inl error, item2', w2)
            /\ downloadWithRetry tr item3 w2 = (outcome3, item3', w')
            /\ rs = [result_of item1 outcome1;
                     failed_result (qi_media item2) error;
                     result_of item3 outcome3]
            /\ res_media (result_of item1 outcome1) = qi_media item1
            /\ res_media (result_of item3 outcome3) = qi_media item3
            /\ log w2 = log w1 ++ evs2
            /\ requests evs2
               = repeat (request_for (qi_media item2))
                        (1 + retryAttempts (downloads CONFIG))
            /\ log w' = log w2 ++ evs3
            /\ requests evs3 = repeat (request_for (qi_media item3)) n3
            /\ (1 <= n3 <= 1 + retryAttempts (downloads CONFIG))%nat).
Proof.
  intros Hidle. rewrite (process_not_processing tr this w Hidle).
  destruct (run_items_log (queue this) w)
    as (counts & evs & Hlog & Hlen & Hcounts & Hreq & _).
  eexists _, _, _, counts, evs. split; [reflexivity|]. split; [reflexivity|].
  pose proof (run_items_media tr (queue this) w) as Hmedia.
  split; [exact Hmedia|]. split.
  { rewrite <- (length_map res_media), Hmedia. apply length_map. }
  do 3 (split; [reflexivity|]).
  split; [exact Hlog|]. split; [exact Hlen|]. split; [exact Hcounts|].
  split; [exact Hreq|]. split.
  - intros mediaItems sourceUrl. simpl. rewrite map_app, map_map. simpl.
    now rewrite map_id.
  - intros item1 item2 item3 outcome1 item1' w1 Hqueue Hfirst Hfails.
    rewrite Hqueue. cbn [run_items]. rewrite Hfirst.
    destruct (downloadWithRetry_fails tr item2 w1 Hfails)
      as (error & item2' & w2 & evs2 & Hsecond & Hlog2 & Hreq2).
    rewrite Hsecond.
    destruct (downloadWithRetry tr item3 w2) as [[outcome3 item3'] w3] eqn:Hthird.
    cbn [fst snd].
    destruct (retry_loop_log (retryAttempts (downloads CONFIG)) 0 item3 w2)
      as (evs3 & n3 & Hlog3 & Hreq3 & Hn3 & _).
    fold (downloadWithRetry tr item3 w2) in Hlog3. rewrite Hthird in Hlog3.
    cbn [snd] in Hlog3.
    exists error, item2', w2, outcome3, item3', evs2, evs3, n3.
    split; [reflexivity|]. split; [exact Hthird|]. split; [reflexivity|].
    split; [exact (result_of_media _ _ _ _ _ Hfirst)|].
    split; [exact (result_of_media _ _ _ _ _ Hthird)|].
    split; [exact Hlog2|]. split; [exact Hreq2|].
    split; [exact Hlog3|]. split; [exact Hreq3|]. exact Hn3.
Qed.

(** X3: after a run of process on an idle instance, getStatus reports an
    idle instance with an empty queue, and its completed and failed counts
    add up to the number of items that were pending; every result is
    either completed, with a transfer id and no error, or failed, with an
    error and no transfer id. *)
Theorem process_status_counts (this : State) (w : World tr) :
  isProcessing this = false ->
  let this' := snd (fst (process tr this w)) in
  st_isProcessing (getStatus this') = false
  /\ st_queueLength (getStatus this') = 0%nat
  /\ (st_completedCount (getStatus this') + st_failedCount (getStatus this')
      = List.length (queue this))%nat
  /\ (queue this <> [] -> st_currentDownload (getStatus this') = None)
  /\ fst (fst (process tr this w)) = inr (results this')
  /\ Forall well_formed_result (results this').
Proof.
  intros Hidle. rewrite (process_not_processing tr this w Hidle).
  cbn [fst snd getStatus st_isProcessing st_queueLength st_completedCount
       st_failedCount st_currentDownload queue isProcessing results currentDownload
       List.length].
  pose proof (run_items_well_formed (queue this) w) as Hwf.
  repeat split.
  - rewrite (length_filter_status _ Hwf).
    rewrite <- (length_map res_media), run_items_media. apply length_map.
  - intros Hne. now destruct (queue this).
  - exact Hwf.
Qed.

(** X4: the results list belongs to one run. A second call of process,
    made when the first has returned and nothing was added, returns the
    empty list, asks nothing of the host, and leaves an empty results
    list, so that the counts of getStatus are back to 0. *)
Theorem process_again_forgets_results (this : State) (w : World tr) :
  isProcessing this = false ->
  let this1 := snd (fst (process tr this w)) in
  let w1 := snd (process tr this w) in
  exists this2,
    process tr this1 w1 = (inr [], this2, w1)
    /\ results this2 = []
    /\ queue this2 = []
    /\ isProcessing this2 = false
    /\ st_completedCount (getStatus this2) = 0%nat
    /\ st_failedCount (getStatus this2) = 0%nat.
Proof.
  intros Hidle. rewrite (process_not_processing tr this w Hidle). cbn [fst snd].
  eexists. split; [reflexivity|]. repeat split.
Qed.

(** X5: clear resets the instance whatever state it is in. After clear, a
    call of process is accepted, also when the instance was marked as
    processing; it returns the empty list and asks nothing of the host,
    the items that were pending being dropped without a request; and
    getStatus reports an idle, empty instance. *)
Theorem clear_resets (this : State) (w : World tr) :
  process tr (clear this) w = (inr [], clear this, w)
  /\ getStatus (clear this)
     = {| st_isProcessing := false; st_queueLength := 0;
          st_currentDownload := None;
          st_completedCount := 0; st_failedCount := 0 |}
  /\ clear (clear this) = clear this
  /\ clear (add (map qi_media (queue this)) "" this) = clear this.
Proof. repeat split. Qed.

End QueueMoreFacts.

Section QueueMoreExamples.
Import JsString MediaExtractor DownloadQueue QueueReference QueueScenarios.



(** Witness of C2: three items of which the second cannot be downloaded:
    it is requested four times and recorded as failed, and the third is
    requested after it and completes. *)
Lemma process_results_in_order_witness :
  exists rs this' w',
    process example_transport example_queue example_world = (inr rs, this', w')
    /\ map res_media rs = example_items
    /\ map res_status rs = [completed; failed; completed]
    /\ map res_downloadId rs = [Some 1; None; Some 2]
    /\ map opt_filename (requests (log w'))
       = ["image1.jpg"; "broken.jpg"; "broken.jpg"; "broken.jpg"; "broken.jpg";
          "image3.jpg"].
Proof.
  destruct (process_results_in_order example_transport example_queue example_world
              eq_refl)
    as (rs & this' & w' & counts & evs & Hprocess & _ & Hmedia & _).
  exists rs, this', w'. split; [exact Hprocess|]. split; [exact Hmedia|].
  vm_compute in Hprocess. injection Hprocess as <- _ <-.
  repeat split.
Defined.

(** Witness of X3: two of the three example items complete, one fails. *)
Lemma process_status_counts_witness :
  st_completedCount
    (getStatus (snd (fst (process example_transport example_queue example_world))))
  = 2%nat
  /\ (st_completedCount
        (getStatus (snd (fst (process example_transport example_queue example_world))))
      + st_failedCount
          (getStatus (snd (fst (process example_transport example_queue
                                  example_world))))
      = 3)%nat.
Proof.
  destruct (process_status_counts example_transport example_queue example_world
              eq_refl)
    as (_ & _ & Hsum & _).
  split; [reflexivity | exact Hsum].
Defined.

(** Witness of X4: the example queue, run twice. *)
Lemma process_again_forgets_results_witness :
  exists this2,
    process example_transport
      (snd (fst (process example_transport example_queue example_world)))
      (snd (process example_transport example_queue example_world))
    = (inr [], this2, snd (process example_transport example_queue example_world))
    /\ results this2 = [].
Proof.
  destruct (process_again_forgets_results example_transport example_queue
              example_world eq_refl)
    as (this2 & Hrun & Hresults & _).
  exists this2. split; assumption.
Defined.

End QueueMoreExamples.

(** ** More on the extractor *)

Section ExtractorMoreFacts.
Import JsString MediaExtractor Reference.

Lemma is_http_not_data (url : string) :
  is_http url = true -> startsWith url "data:" = false /\ String.eqb url "" = false.
Proof.
  destruct url as [|c url]; [discriminate|]. unfold is_http.
  cbn [startsWith]. destruct (Ascii.eqb_spec c "h") as [->|_]; [now split|].
  discriminate.
Qed.

(** X6: a URL is valid exactly when it starts with http:// or https:// and
    has at most 2048 characters. The tests for the empty string and for the
    data: scheme never decide: what they reject has neither prefix. *)
Theorem isValidMediaUrl_http_and_length (url : string) :
  isValidMediaUrl url = is_http url && (JsString.length url <=? 2048).
Proof.
  unfold isValidMediaUrl. destruct (is_http url) eqn:Hhttp.
  - destruct (is_http_not_data url Hhttp) as [-> ->].
    unfold is_http in Hhttp. apply orb_true_iff in Hhttp.
    replace (negb (startsWith url "http://") && negb (startsWith url "https://"))
      with false
      by (destruct Hhttp as [-> | ->]; [reflexivity|now rewrite andb_false_r]).
    cbn [andb]. rewrite Z.gtb_ltb, Z.leb_antisym.
    now destruct (2048 <? JsString.length url).
  - unfold is_http in Hhttp. apply orb_false_iff in Hhttp as [-> ->].
    cbn [negb andb]. now destruct (String.eqb url "").
Qed.

Lemma getHighestResolutionFromSrcset_nonempty (srcset url : string) :
  getHighestResolutionFromSrcset srcset = Some url -> url <> "".
Proof.
  unfold getHighestResolutionFromSrcset.
  destruct (String.eqb srcset ""); [discriminate|].
  destruct (array_sort _ _) as [|s sorted]; [discriminate|].
  destruct (String.eqb_spec (src_url s) "") as [|Hne]; [discriminate|].
  now intros [= <-].
Qed.

Lemma extractImageUrl_inv (loc : Location) (img : Element) (url : string) :
  extractImageUrl loc img = Some url ->
  exists raw, raw <> "" /\ url = makeAbsoluteUrl loc raw
              /\ (raw = src img
                  \/ getHighestResolutionFromSrcset (srcset img) = Some raw).
Proof.
  unfold extractImageUrl.
  destruct (String.eqb (srcset img) "").
  - destruct (String.eqb_spec (src img) "") as [|Hne]; [discriminate|].
    intros [= <-]. exists (src img). auto.
  - destruct (getHighestResolutionFromSrcset (srcset img)) as [raw|] eqn:Hraw.
    + intros [= <-]. exists raw.
      split; [now apply getHighestResolutionFromSrcset_nonempty in Hraw|auto].
    + destruct (String.eqb_spec (src img) "") as [|Hne]; [discriminate|].
      intros [= <-]. exists (src img). auto.
Qed.

Lemma extractVideoUrl_inv (loc : Location) (video : Element) (url : string) :
  extractVideoUrl loc video = Some url ->
  exists raw, raw <> "" /\ url = makeAbsoluteUrl loc raw
              /\ (raw = src video
                  \/ (src video = "" /\ hd_error (sourceChildren video) = Some raw)).
Proof.
  unfold extractVideoUrl.
  destruct (String.eqb_spec (src video) "") as [Hsrc|Hne]; cbn [negb].
  - destruct (sourceChildren video) as [|firstSource more]; [discriminate|].
    destruct (String.eqb_spec firstSource "") as [|Hne]; [discriminate|].
    cbn [negb]. intros [= <-]. exists firstSource. auto.
  - intros [= <-]. exists (src video). auto.
Qed.

(** X7: on an http or https page, whatever extractImageUrl or
    extractVideoUrl returns for an element is an http(s) URL, which making
    absolute again leaves alone; so the validation can reject such a URL
    only for its length. *)
Theorem extracted_url_is_http (loc : Location) (element : Element) (url : string) :
  http_location loc ->
  extractImageUrl loc element = Some url \/ extractVideoUrl loc element = Some url ->
  is_http url = true
  /\ makeAbsoluteUrl loc url = url
  /\ isValidMediaUrl url = (JsString.length url <=? 2048).
Proof.
  intros Hloc Hurl.
  assert (Hhttp : is_http url = true).
  { destruct Hurl as [Hurl | Hurl].
    - apply extractImageUrl_inv in Hurl as (raw & Hne & -> & _).
      now apply makeAbsoluteUrl_is_http.
    - apply extractVideoUrl_inv in Hurl as (raw & Hne & -> & _).
      now apply makeAbsoluteUrl_is_http. }
  split; [exact Hhttp|]. split; [now apply makeAbsoluteUrl_http|].
  unfold isValidMediaUrl. destruct (is_http_not_data url Hhttp) as [-> ->].
  unfold is_http in Hhttp. apply orb_true_iff in Hhttp.
  replace (negb (startsWith url "http://") && negb (startsWith url "https://"))
    with false
    by (destruct Hhttp as [-> | ->]; [reflexivity|now rewrite andb_false_r]).
  rewrite Z.gtb_ltb, Z.leb_antisym.
  now destruct (2048 <? JsString.length url).
Qed.

(** X8: of a video element, extractVideoUrl reads the src and the src of
    the first source child, nothing else: two videos that agree on these
    get the same URL, whatever further source children they have; and no
    URL is returned exactly when the src is empty and there is no first
    source child with a src, even if a later one has a src. *)
Theorem extractVideoUrl_first_source (loc : Location) (video : Element) :
  (extractVideoUrl loc video = None
   <-> src video = "" /\ hd "" (sourceChildren video) = "")
  /\ (forall other : Element,
        src other = src video ->
        hd_error (sourceChildren other) = hd_error (sourceChildren video) ->
        extractVideoUrl loc other = extractVideoUrl loc video).
Proof.
  split.
  - unfold extractVideoUrl.
    destruct (String.eqb_spec (src video) "") as [Hsrc|Hne]; cbn [negb].
    + destruct (sourceChildren video) as [|firstSource more]; cbn [hd];
        [tauto|].
      destruct (String.eqb_spec firstSource "") as [|Hne]; cbn [negb];
        [tauto|].
      split; [discriminate|]. intros [_ H]. contradiction.
    + split; [discriminate|]. intros [H _]. contradiction.
  - intros other Hsrc Hfirst. unfold extractVideoUrl. rewrite Hsrc.
    destruct (sourceChildren other) as [|a l], (sourceChildren video) as [|b k];
      cbn [hd_error] in Hfirst; try discriminate; [reflexivity|].
    now injection Hfirst as ->.
Qed.

(** X9: for a non-empty URL the file name of a media object is never
    empty and always contains a dot. It is either the part of the parsed
    path after the last slash, taken when that part is not empty and has a
    dot, and then it contains no slash; or the generated name, which
    starts with media_ and ends in a dot and the guessed extension. *)
Theorem extractFilenameFromUrl_shape (doc : Document) (st : Stamp) (url : string) :
  url <> "" ->
  let filename := extractFilenameFromUrl doc st url in
  filename <> ""
  /\ includes filename "." = true
  /\ ((exists pathname directory,
         URL_pathname doc url = Some pathname
         /\ pathname = directory +:+ filename
         /\ includes filename "/" = false)
      \/ (filename = generateFilename (filename_now st) (filename_random st) url
          /\ startsWith filename "media_" = true
          /\ exists stem, filename = stem +:+ "." +:+ guessExtensionFromUrl url)).
Proof.
  intros Hne filename.
  assert (Hgen : forall f,
             f = generateFilename (filename_now st) (filename_random st) url ->
             f <> "" /\ includes f "." = true
             /\ startsWith f "media_" = true
             /\ exists stem, f = stem +:+ "." +:+ guessExtensionFromUrl url).
  { intros f ->.
    assert (Hstem : exists stem,
               generateFilename (filename_now st) (filename_random st) url
               = stem +:+ "." +:+ guessExtensionFromUrl url).
    { unfold generateFilename.
      exists ("media_" +:+ NilEmpty.string_of_int (Z.to_int (filename_now st))
              +:+ "_" +:+ substring (filename_random st) 2 6).
      now rewrite !append_assoc. }
    split; [unfold generateFilename; simpl; discriminate|].
    split; [|split; [reflexivity|exact Hstem]].
    destruct Hstem as [stem ->]. apply includes_spec.
    now exists stem, (guessExtensionFromUrl url). }
  subst filename. unfold extractFilenameFromUrl.
  destruct (String.eqb_spec url "") as [|_]; [contradiction|].
  destruct (URL_pathname doc url) as [pathname|] eqn:Hpath.
  - destruct (negb _ && includes _ ".") eqn:Hcond.
    + apply andb_true_iff in Hcond as [Hnonempty Hdot].
      split; [intros Heq; rewrite Heq in Hnonempty; discriminate|].
      split; [exact Hdot|]. left. exists pathname.
      pose proof (lastIndexOf_lower_bound pathname "/") as Hlow.
      destruct (Z.eq_dec (lastIndexOf pathname "/") (-1)) as [Habs|Hpos].
      * exists "". rewrite Habs. simpl. split; [reflexivity|]. split; [reflexivity|].
        now apply lastIndexOf_absent.
      * destruct (lastIndexOf_split pathname "/") as (a & b & Heq & Hb & Hlen);
          [lia|].
        assert (Hfile : substringFrom pathname (lastIndexOf pathname "/" + 1) = b).
        { unfold substringFrom. rewrite Hlen.
          replace (Z.to_nat (Z.of_nat (String.length a) + 1))
            with (String.length (a +:+ "/"))
            by (rewrite length_append; simpl; lia).
          rewrite Heq.
          replace (a +:+ String "/" b) with ((a +:+ "/") +:+ b)
            by now rewrite append_assoc.
          apply drop_chars_exact. }
        rewrite Hfile. exists (a +:+ "/"). split; [reflexivity|].
        split; [now rewrite append_assoc|]. now apply lastIndexOf_absent.
    + destruct (Hgen _ eq_refl) as (H1 & H2 & H3 & H4).
      split; [exact H1|]. split; [exact H2|]. right. auto.
  - destruct (Hgen _ eq_refl) as (H1 & H2 & H3 & H4).
    split; [exact H1|]. split; [exact H2|]. right. auto.
Qed.

End ExtractorMoreFacts.

(** ** More on the DOM analyzer *)

Section DomAnalyzerFacts.
Import JsString MediaExtractor DomAnalyzer Reference DomReference.

(** Below the icon threshold is below the minimum hero size. *)
Lemma ltb_iconThreshold_minHeroSize (x : float) :
  (x <? iconThreshold (detection CONFIG))%float = true ->
  (x <? minHeroSize (detection CONFIG))%float = true.
Proof.
  cbn [iconThreshold minHeroSize detection CONFIG].
  rewrite !ltb_spec. unfold SFltb.
  change (Prim2SF 100) with (S754_finite false 7036874417766400 (-46)).
  change (Prim2SF 200) with (S754_finite false 7036874417766400 (-45)).
  destruct (Prim2SF x) as [s|s| |s m e]; cbn [SFcompare]; try congruence.
  destruct s; [reflexivity|].
  destruct (Z.compare_spec e (-46)), (Z.compare_spec e (-45));
    try congruence; lia.
Qed.

Lemma isIcon_isTooSmall (size : Size) : isIcon size = true -> isTooSmall size = true.
Proof.
  unfold isIcon, isTooSmall. intros H. apply orb_true_iff in H as [H | H];
    apply ltb_iconThreshold_minHeroSize in H; rewrite H;
    [reflexivity | apply orb_true_r].
Qed.

Lemma filterElements_passes (elements : list Element) :
  filterElements elements = List.filter passes_filter elements.
Proof.
  unfold filterElements. apply filter_ext. intros element. unfold passes_filter.
  destruct (isElementVisible element); [|reflexivity]. cbn [negb andb].
  destruct (isTooSmall (calculateElementSize element)) eqn:Hsmall; [reflexivity|].
  destruct (isIcon (calculateElementSize element)) eqn:Hicon.
  { apply isIcon_isTooSmall in Hicon. congruence. }
  rewrite andb_false_r. cbn [negb andb].
  now destruct (shouldExcludeByClassName element).
Qed.

(** X10: filterElements keeps, in their order, the elements that are
    visible, are not too small and have no excluded class name. The icon
    test never removes anything: the icon threshold (100) is below the
    minimum hero size (200), so an icon is already too small. *)
Theorem filterElements_icon_test_is_redundant (elements : list Element) :
  filterElements elements
  = List.filter
      (fun element =>
         isElementVisible element
         && negb (isTooSmall (calculateElementSize element))
         && negb (shouldExcludeByClassName element))
      elements
  /\ (forall size, isIcon size = true -> isTooSmall size = true)
  /\ Forall (fun element => isIcon (calculateElementSize element) = false)
            (filterElements elements).
Proof.
  split; [apply filterElements_passes|]. split; [apply isIcon_isTooSmall|].
  rewrite filterElements_passes. apply List.Forall_forall. intros element Hin.
  apply filter_In in Hin as [_ Hpass]. unfold passes_filter in Hpass.
  destruct (isIcon (calculateElementSize element)) eqn:Hicon; [|reflexivity].
  apply isIcon_isTooSmall in Hicon. rewrite Hicon in Hpass.
  now rewrite andb_false_r in Hpass.
Qed.

Lemma includes_middle (s before search after : string) :
  s = before +:+ search +:+ after -> includes s search = true.
Proof. intros ->. apply includes_spec. now exists before, after. Qed.

Lemma includes_advertisement (s : string) :
  includes s "advertisement" = true -> includes s "ad" = true.
Proof.
  intros H. apply includes_spec in H as (a & b & ->).
  apply (includes_middle _ a "ad" ("vertisement" +:+ b)). reflexivity.
Qed.

Lemma shouldExcludeByClassName_deciding (element : Element) :
  shouldExcludeByClassName element
  = existsb (includes (toLowerCase (className element))) decidingClassNames.
Proof.
  unfold shouldExcludeByClassName, decidingClassNames.
  cbn [excludeClassNames generic CONFIG existsb].
  destruct (includes (toLowerCase (className element)) "ad") eqn:Had;
    [reflexivity|].
  destruct (includes (toLowerCase (className element)) "advertisement") eqn:Hadv;
    [|reflexivity].
  apply includes_advertisement in Hadv. congruence.
Qed.

(** X11: class names are excluded by substring. An element is excluded as
    soon as the lower-cased class attribute contains one of ad, sponsor,
    banner, icon, avatar, thumbnail-small, logo anywhere, inside another
    word too: every class attribute with the letters ad in it (header,
    shadow, loading) excludes its element, which filterElements then
    never keeps. The entry advertisement of the configuration never decides. *)
Theorem shouldExcludeByClassName_substring (element : Element) :
  shouldExcludeByClassName element
  = existsb (includes (toLowerCase (className element)))
      ["ad"; "sponsor"; "banner"; "icon"; "avatar"; "thumbnail-small"; "logo"]
  /\ (forall before after,
        toLowerCase (className element) = before +:+ "ad" +:+ after ->
        shouldExcludeByClassName element = true)
  /\ (shouldExcludeByClassName element = true ->
      forall elements, ~ In element (filterElements elements)).
Proof.
  split; [apply shouldExcludeByClassName_deciding|]. split.
  - intros before after Hclass. rewrite shouldExcludeByClassName_deciding.
    cbn [decidingClassNames existsb].
    now rewrite (includes_middle _ _ _ _ Hclass).
  - intros Hexcluded elements Hin. rewrite filterElements_passes in Hin.
    apply filter_In in Hin as [_ Hpass]. unfold passes_filter in Hpass.
    rewrite Hexcluded in Hpass. now rewrite andb_false_r in Hpass.
Qed.

Lemma match_group_quoted (url : string) (q : ascii) (rest : string) :
  url <> "" -> quote_free url = true -> is_quote q = true ->
  match_group (url +:+ String q (String ")" rest)) = Some url.
Proof.
  intros Hne Hfree Hq. induction url as [|c url IH]; [contradiction|].
  cbn [quote_free] in Hfree. apply andb_true_iff in Hfree as [Hc Hfree].
  apply negb_true_iff in Hc. cbn [String.append match_group]. rewrite Hc.
  destruct url as [|c' url].
  - cbn [String.append match_group match_close]. now rewrite Hq.
  - now rewrite IH.
Qed.

Lemma match_group_unquoted (url : string) :
  url <> "" -> quote_free url = true -> match_group (url +:+ ")") = Some url.
Proof.
  intros Hne Hfree. induction url as [|c url IH]; [contradiction|].
  cbn [quote_free] in Hfree. apply andb_true_iff in Hfree as [Hc Hfree].
  apply negb_true_iff in Hc. cbn [String.append match_group]. rewrite Hc.
  destruct url as [|c' url].
  - reflexivity.
  - now rewrite IH.
Qed.

Lemma hasBackgroundImage_url (element : Element) (rest : string) :
  backgroundImage (style element) = "url(" +:+ rest ->
  hasBackgroundImage element = true.
Proof. unfold hasBackgroundImage. now intros ->. Qed.

Lemma match_url_at_start (rest group : string) :
  match_after_open rest = Some group -> match_url ("url(" +:+ rest) = Some group.
Proof.
  intros H. change ("url(" +:+ rest) with (String "u" (String "r" (String "l" (String "(" rest)))).
  cbn [match_url]. 
  change (startsWith (String "u" (String "r" (String "l" (String "(" rest)))) "url(")
    with true.
  change (drop_chars 4 (String "u" (String "r" (String "l" (String "(" rest)))))
    with rest.
  cbv iota. now rewrite H.
Qed.

(** X12: the URL of a computed background-image comes back as it was
    put in. For a non-empty address without quote characters,
    extractBackgroundImageUrl returns exactly that address when the style
    is the address in quotes (single or double) inside url( ), whatever
    follows the closing parenthesis, and when the style is the address
    without quotes inside url( ) and nothing follows. *)
Theorem extractBackgroundImageUrl_round_trip (element : Element) (url : string) :
  url <> "" -> quote_free url = true ->
  (forall q1 q2 rest,
     is_quote q1 = true -> is_quote q2 = true ->
     backgroundImage (style element)
     = "url(" +:+ String q1 url +:+ String q2 (String ")" rest) ->
     extractBackgroundImageUrl element = Some url)
  /\ (backgroundImage (style element) = "url(" +:+ url +:+ ")" ->
      extractBackgroundImageUrl element = Some url).
Proof.
  intros Hne Hfree. split.
  - intros q1 q2 rest Hq1 Hq2 Hstyle. unfold extractBackgroundImageUrl.
    rewrite (hasBackgroundImage_url _ _ Hstyle), Hstyle.
    apply match_url_at_start.
    change (String q1 url +:+ String q2 (String ")" rest))
      with (String q1 (url +:+ String q2 (String ")" rest))).
    cbn [match_after_open]. rewrite Hq1.
    exact (match_group_quoted url q2 rest Hne Hfree Hq2).
  - intros Hstyle. unfold extractBackgroundImageUrl.
    rewrite (hasBackgroundImage_url _ _ Hstyle), Hstyle.
    apply match_url_at_start.
    destruct url as [|c url]; [contradiction|].
    pose proof Hfree as Hc. cbn [quote_free] in Hc.
    apply andb_true_iff in Hc as [Hc _]. apply negb_true_iff in Hc.
    change (String c url +:+ ")") with (String c (url +:+ ")")).
    cbn [match_after_open]. rewrite Hc.
    change (String c (url +:+ ")")) with (String c url +:+ ")").
    exact (match_group_unquoted (String c url) Hne Hfree).
Qed.

End DomAnalyzerFacts.

(** ** More on the generic detector *)

Section GenericDetectorFacts.
Import JsString MediaExtractor DomAnalyzer GenericDetector Reference DomReference.

Lemma In_sort_insert {A} (after : A -> A -> bool) (x y : A) (l : list A) :
  In y (sort_insert after x l) <-> y = x \/ In y l.
Proof.
  induction l as [|z l IH]; cbn [sort_insert In]; [intuition congruence|].
  destruct (after x z); cbn [In]; [rewrite IH|]; intuition congruence.
Qed.

Lemma In_array_sort {A} (after : A -> A -> bool) (y : A) (l : list A) :
  In y (array_sort after l) <-> In y l.
Proof.
  induction l as [|x l IH]; cbn [array_sort In]; [reflexivity|].
  rewrite In_sort_insert, IH. intuition congruence.
Qed.

(** What a stage returns is made from a candidate that passed the
    filter, with its score and its validated URL. *)
Lemma detect_stage_inv (doc : Document) (candidates : list Element)
    (extract : Element -> option string) (type : string) (m : MediaObject) :
  detect_stage doc candidates extract type = Some m ->
  exists element,
    In element candidates
    /\ passes_filter element = true
    /\ extract element = Some (mo_url m)
    /\ isValidMediaUrl (mo_url m) = true
    /\ m = createMediaObject doc (stamps doc 0%nat) (mo_url m) type element
             (sc_score (score_element doc element)).
Proof.
  unfold detect_stage. intros H.
  destruct candidates as [|c0 candidates0] eqn:Hcandidates; [discriminate|].
  rewrite <- Hcandidates in *. clear Hcandidates.
  destruct (filterElements candidates) as [|v0 valid0] eqn:Hvalid; [discriminate|].
  rewrite <- Hvalid in *.
  destruct (array_sort score_after (map (score_element doc) (filterElements candidates)))
    as [|winner sorted] eqn:Hsorted; [discriminate|].
  assert (Hwinner : In winner (map (score_element doc) (filterElements candidates))).
  { apply (In_array_sort score_after). rewrite Hsorted. now left. }
  apply in_map_iff in Hwinner as (element & <- & Hin).
  rewrite filterElements_passes in Hin. apply filter_In in Hin as [Hin Hpass].
  cbn [sc_element score_element] in H.
  destruct (extract element) as [url|] eqn:Hextract; [|discriminate].
  destruct (isValidMediaUrl url) eqn:Hurl;
    [|rewrite andb_false_r in H; discriminate].
  destruct (negb (String.eqb url "")); [|discriminate].
  cbn [andb] in H. injection H as <-.
  exists element.
  rewrite (createMediaObject_url doc _ url type element _ Hurl).
  repeat split; assumption.
Qed.

(** X13: the generic detector returns at most one media object, without
    carousel numbering. The object is made from an element of the page
    that is visible, not too small and not of an excluded class; it
    carries that element's score and lower-cased tag name; and its URL is
    the valid URL extracted from that element: from a video element for
    the type video, from an img element or from a background-image for
    the type image. *)
Theorem generic_hero_comes_from_filtered_element (doc : Document) (m : MediaObject) :
  In m (detectHeroMedia doc) ->
  detectHeroMedia doc = [m]
  /\ mo_position m = None /\ mo_totalItems m = None
  /\ isValidMediaUrl (mo_url m) = true
  /\ exists element,
       In element (elements doc)
       /\ isElementVisible element = true
       /\ isTooSmall (calculateElementSize element) = false
       /\ shouldExcludeByClassName element = false
       /\ mo_score m = sc_score (score_element doc element)
       /\ mo_element m = toLowerCase (tagName element)
       /\ ((mo_type m = "video" /\ localName element = "video"
            /\ extractVideoUrl (location doc) element = Some (mo_url m))
           \/ (mo_type m = "image" /\ localName element = "img"
               /\ extractImageUrl (location doc) element = Some (mo_url m))
           \/ (mo_type m = "image"
               /\ extractBackgroundImageUrl element = Some (mo_url m))).
Proof.
  assert (Hstage : forall candidates extract type,
             detect_stage doc candidates extract type = Some m ->
             (forall e, In e candidates -> In e (elements doc)) ->
             mo_position m = None /\ mo_totalItems m = None
             /\ isValidMediaUrl (mo_url m) = true
             /\ mo_type m = type
             /\ exists element,
                  In element candidates
                  /\ In element (elements doc)
                  /\ isElementVisible element = true
                  /\ isTooSmall (calculateElementSize element) = false
                  /\ shouldExcludeByClassName element = false
                  /\ mo_score m = sc_score (score_element doc element)
                  /\ mo_element m = toLowerCase (tagName element)
                  /\ extract element = Some (mo_url m)).
  { intros candidates extract type H Hsub.
    apply detect_stage_inv in H as (element & Hin & Hpass & Hextract & Hvalid & Hm).
    unfold passes_filter in Hpass.
    apply andb_true_iff in Hpass as [Hpass Hclass].
    apply andb_true_iff in Hpass as [Hvisible Hsmall].
    apply negb_true_iff in Hclass, Hsmall.
    split; [now rewrite Hm|]. split; [now rewrite Hm|].
    split; [exact Hvalid|]. split; [now rewrite Hm|].
    exists element. repeat split; auto; now rewrite Hm. }
  unfold detectHeroMedia, detectHeroVideo, detectHeroImage,
    detectHeroBackgroundImage.
  cbn [prioritizeVideos generic CONFIG].
  destruct (detect_stage doc (getAllVideos doc) _ _) as [v|] eqn:Hv.
  { intros [<-|[]]. split; [reflexivity|].
    destruct (Hstage _ _ _ Hv) as (H1 & H2 & H3 & H4 & e & Hc & He & H5 & H6 & H7 & H8 & H9 & H10).
    { intros e He. now apply filter_In in He. }
    split; [exact H1|]. split; [exact H2|]. split; [exact H3|].
    exists e. repeat split; try assumption. left.
    apply filter_In in Hc as [_ Hc]. apply String.eqb_eq in Hc. auto. }
  destruct (detect_stage doc (getAllImages doc) _ _) as [i|] eqn:Hi.
  { intros [<-|[]]. split; [reflexivity|].
    destruct (Hstage _ _ _ Hi) as (H1 & H2 & H3 & H4 & e & Hc & He & H5 & H6 & H7 & H8 & H9 & H10).
    { intros e He. now apply filter_In in He. }
    split; [exact H1|]. split; [exact H2|]. split; [exact H3|].
    exists e. repeat split; try assumption. right. left.
    apply filter_In in Hc as [_ Hc]. apply String.eqb_eq in Hc. auto. }
  destruct (detect_stage doc (getElementsWithBackgroundImages doc) _ _) as [b|] eqn:Hb.
  { intros [<-|[]]. split; [reflexivity|].
    destruct (Hstage _ _ _ Hb) as (H1 & H2 & H3 & H4 & e & Hc & He & H5 & H6 & H7 & H8 & H9 & H10).
    { intros e He. now apply filter_In in He. }
    split; [exact H1|]. split; [exact H2|]. split; [exact H3|].
    exists e. repeat split; try assumption. right. right. auto. }
  intros [].
Qed.

Lemma detect_stage_nothing (doc : Document) (candidates : list Element)
    (extract : Element -> option string) (type : string) :
  (forall e, In e candidates -> passes_filter e = false) ->
  detect_stage doc candidates extract type = None.
Proof.
  intros Hnone. destruct (detect_stage doc candidates extract type) as [m|] eqn:H;
    [|reflexivity].
  apply detect_stage_inv in H as (element & Hin & Hpass & _).
  rewrite (Hnone element Hin) in Hpass. discriminate.
Qed.

(** X14: when no element of the page is at once visible, at least the
    minimum hero size in both dimensions and free of excluded class
    names, the generic detector finds nothing, whatever URLs the
    elements carry. *)
Theorem generic_nothing_without_candidate (doc : Document) :
  (forall element, In element (elements doc) ->
     isElementVisible element = false
     \/ isTooSmall (calculateElementSize element) = true
     \/ shouldExcludeByClassName element = true) ->
  detectHeroMedia doc = [].
Proof.
  intros Hnone.
  assert (Hpass : forall candidates,
             (forall e, In e candidates -> In e (elements doc)) ->
             forall e, In e candidates -> passes_filter e = false).
  { intros candidates Hsub e Hin. unfold passes_filter.
    destruct (Hnone e (Hsub e Hin)) as [-> | [-> | ->]];
      [reflexivity | now rewrite andb_false_r | apply andb_false_r]. }
  unfold detectHeroMedia, detectHeroVideo, detectHeroImage,
    detectHeroBackgroundImage.
  rewrite !detect_stage_nothing; [now destruct (prioritizeVideos _)| | |];
    apply Hpass; intros e He; now apply filter_In in He.
Qed.

End GenericDetectorFacts.

(** ** More on the Instagram detector *)

Section InstagramDetectorFacts.
Import JsString MediaExtractor InstagramDetector Reference.

Lemma valid_url_test (url : string) :
  negb (String.eqb url "") && isValidMediaUrl url = isValidMediaUrl url.
Proof.
  destruct (isValidMediaUrl url) eqn:Hvalid; [|apply andb_false_r].
  now rewrite (isValidMediaUrl_nonempty url Hvalid).
Qed.

Lemma single_video_shape (doc : Document) (video : Element) :
  let result :=
    match extractVideoUrl (location doc) video with
    | Some url =>
        if negb (String.eqb url "") && isValidMediaUrl url
        then [createMediaObject doc (stamps doc 0%nat) url "video" video 0%float]
        else []
    | None => []
    end in
  map mo_url result = omap (qualifying_video_url doc) [video]
  /\ (List.length result <= 1)%nat
  /\ Forall (fun m => mo_position m = None /\ mo_totalItems m = None
                      /\ mo_type m = "video" /\ mo_score m = 0%float) result.
Proof.
  cbn zeta. unfold qualifying_video_url. cbn [omap list_omap].
  destruct (extractVideoUrl (location doc) video) as [url|];
    [|repeat split; auto].
  rewrite valid_url_test. destruct (isValidMediaUrl url) eqn:Hvalid;
    [|repeat split; auto].
  cbn [map]. rewrite (createMediaObject_url _ _ _ _ _ _ Hvalid).
  repeat split; auto; repeat constructor.
Qed.

Lemma first_image_shape (doc : Document) (images : list Element) :
  map mo_url (first_image doc images)
  = take 1 (omap (qualifying_image_url doc) images)
  /\ (List.length (first_image doc images) <= 1)%nat
  /\ Forall (fun m => mo_position m = None /\ mo_totalItems m = None
                      /\ mo_type m = "image" /\ mo_score m = 0%float)
            (first_image doc images).
Proof.
  induction images as [|img rest IH]; [repeat split; auto|].
  cbn [first_image omap list_omap]. unfold qualifying_image_url at 1.
  destruct (isProfilePicture img || isUIElement img); [exact IH|].
  destruct (extractImageUrl (location doc) img) as [url|]; [|exact IH].
  rewrite valid_url_test. destruct (isValidMediaUrl url) eqn:Hvalid; [|exact IH].
  cbn [map]. rewrite (createMediaObject_url _ _ _ _ _ _ Hvalid).
  repeat split; auto; repeat constructor.
Qed.

(** X15: the Instagram detector never returns more than maxCarouselItems
    items. For every post type but the carousel it returns at most one
    item, which carries no position and no total, has score 0, and is of
    type image for an image post and of type video for a video post and
    for a reel; for an unknown post type it returns nothing. *)
Theorem instagram_result_bounds (doc : Document) :
  (List.length (detectHeroMedia doc) <= maxCarouselItems (instagram CONFIG))%nat
  /\ (detectPostType doc <> PostCarousel ->
      (List.length (detectHeroMedia doc) <= 1)%nat
      /\ Forall (fun m =>
                   mo_position m = None /\ mo_totalItems m = None
                   /\ mo_score m = 0%float
                   /\ mo_type m = match detectPostType doc with
                                  | PostImage => "image"
                                  | _ => "video"
                                  end)
                (detectHeroMedia doc))
  /\ (detectPostType doc = PostUnknown -> detectHeroMedia doc = []).
Proof.
  assert (Hsingle :
            detectPostType doc <> PostCarousel ->
            (List.length (detectHeroMedia doc) <= 1)%nat
            /\ Forall (fun m =>
                   mo_position m = None /\ mo_totalItems m = None
                   /\ mo_score m = 0%float
                   /\ mo_type m = match detectPostType doc with
                                  | PostImage => "image"
                                  | _ => "video"
                                  end)
                (detectHeroMedia doc)).
  { intros Hpost. unfold detectHeroMedia.
    destruct (detectPostType doc); [contradiction| | | |].
    - unfold detectVideo. destruct (article doc) as [art|]; [|split; auto].
      destruct (List.filter is_video art) as [|video videos]; [split; auto|].
      destruct (single_video_shape doc video) as (_ & Hlen & Hall).
      split; [exact Hlen|]. eapply Forall_impl; [exact Hall|].
      cbn beta. intros m (H1 & H2 & H3 & H4). auto.
    - unfold detectReel.
      destruct (List.filter _ (elements doc)) as [|video videos]; [split; auto|].
      destruct (single_video_shape doc video) as (_ & Hlen & Hall).
      split; [exact Hlen|]. eapply Forall_impl; [exact Hall|].
      cbn beta. intros m (H1 & H2 & H3 & H4). auto.
    - unfold detectImage. destruct (article doc) as [art|]; [|split; auto].
      destruct (first_image_shape doc (List.filter is_img_with_srcset art))
        as (_ & Hlen & Hall).
      split; [exact Hlen|]. eapply Forall_impl; [exact Hall|].
      cbn beta. intros m (H1 & H2 & H3 & H4). auto.
    - split; auto. }
  split; [|split; [exact Hsingle|]].
  - destruct (detectPostType doc) eqn:Hpost.
    + unfold detectHeroMedia. rewrite Hpost. unfold detectCarousel.
      destruct (article doc) as [art|]; [|cbn; lia].
      rewrite length_imap. unfold carousel_limited. rewrite length_take. lia.
    + destruct Hsingle as [Hlen _]; [discriminate|].
      cbn [maxCarouselItems instagram CONFIG]. lia.
    + destruct Hsingle as [Hlen _]; [discriminate|].
      cbn [maxCarouselItems instagram CONFIG]. lia.
    + destruct Hsingle as [Hlen _]; [discriminate|].
      cbn [maxCarouselItems instagram CONFIG]. lia.
    + destruct Hsingle as [Hlen _]; [discriminate|].
      cbn [maxCarouselItems instagram CONFIG]. lia.
  - intros Hpost. unfold detectHeroMedia. now rewrite Hpost.
Qed.

(** X16: the single-post detections against the carousel one. For an
    image post the result is the first of the URLs that the carousel loop
    would collect from the images of the post container: images that are
    filtered out or have no valid URL are passed over. For a video post
    only the first video of the container is looked at: when it has no
    valid URL nothing is returned, even if a later video has one. *)
Theorem single_post_urls (doc : Document) (art : list Element) :
  article doc = Some art ->
  map mo_url (detectImage doc) = take 1 (image_urls doc art)
  /\ map mo_url (detectVideo doc)
     = omap (qualifying_video_url doc) (take 1 (List.filter is_video art))
  /\ (forall url, In url (map mo_url (detectVideo doc)) ->
      In url (video_urls doc art)).
Proof.
  intros Hart.
  assert (Hvideo : map mo_url (detectVideo doc)
                   = omap (qualifying_video_url doc)
                          (take 1 (List.filter is_video art))).
  { unfold detectVideo. rewrite Hart.
    destruct (List.filter is_video art) as [|video videos]; [reflexivity|].
    cbn [take]. now destruct (single_video_shape doc video) as (Hurl & _). }
  split; [|split; [exact Hvideo|]].
  - unfold detectImage, image_urls. rewrite Hart.
    now destruct (first_image_shape doc (List.filter is_img_with_srcset art)).
  - intros url. rewrite Hvideo. unfold video_urls.
    destruct (List.filter is_video art) as [|video videos]; [intros []|].
    cbn [take omap list_omap].
    destruct (qualifying_video_url doc video) as [first|]; [|intros []].
    intros [<-|[]]. now left.
Qed.

Lemma append_last_char_unique (c : ascii) (a b a' b' : string) :
  includes b (String c "") = false -> includes b' (String c "") = false ->
  a +:+ String c b = a' +:+ String c b' -> a = a' /\ b = b'.
Proof.
  intros Hb Hb'. revert a'. induction a as [|x a IH]; intros [|x' a'] Heq.
  - cbn [String.append] in Heq. injection Heq as <-. auto.
  - cbn [String.append] in Heq. injection Heq as <- Heq.
    rewrite (includes_middle b a' (String c "") b') in Hb; [discriminate|].
    exact Heq.
  - cbn [String.append] in Heq. injection Heq as -> Heq.
    rewrite (includes_middle b' a (String c "") b) in Hb'; [discriminate|].
    now symmetry.
  - cbn [String.append] in Heq. injection Heq as <- Heq.
    destruct (IH a' Heq) as [-> ->]. auto.
Qed.

Lemma string_of_uint_digits (c : ascii) (d : Decimal.uint) :
  is_digit c = false -> includes (NilEmpty.string_of_uint d) (String c "") = false.
Proof.
  intros Hc. induction d as [|d IH|d IH|d IH|d IH|d IH|d IH|d IH|d IH|d IH|d IH];
    [reflexivity| | | | | | | | | |];
    cbn [NilEmpty.string_of_uint includes startsWith]; rewrite IH;
    match goal with
    | |- context [Ascii.eqb ?a c] =>
        destruct (Ascii.eqb_spec a c) as [<-|_]; [discriminate Hc|reflexivity]
    end.
Qed.

Lemma of_nat_inj (n m : nat) : of_nat n = of_nat m -> n = m.
Proof.
  unfold of_nat. intros H.
  apply (f_equal NilEmpty.uint_of_string) in H. rewrite !NilEmpty.usu in H.
  injection H as H. now apply DecimalNat.Unsigned.to_uint_inj.
Qed.

Lemma numbered_filename_position (name name' extension extension' : string)
    (p p' : nat) :
  includes extension "." = false -> includes extension' "." = false ->
  name +:+ "_" +:+ of_nat p +:+ "." +:+ extension
  = name' +:+ "_" +:+ of_nat p' +:+ "." +:+ extension' ->
  p = p'.
Proof.
  intros Hext Hext' Heq.
  change ("." +:+ extension) with (String "." extension) in Heq.
  change ("." +:+ extension') with (String "." extension') in Heq.
  rewrite <- !append_assoc in Heq.
  apply append_last_char_unique in Heq as [Heq _]; [|assumption|assumption].
  rewrite !append_assoc in Heq.
  change ("_" +:+ of_nat p) with (String "_" (of_nat p)) in Heq.
  change ("_" +:+ of_nat p') with (String "_" (of_nat p')) in Heq.
  apply append_last_char_unique in Heq as [_ Heq];
    [|now apply string_of_uint_digits|now apply string_of_uint_digits].
  now apply of_nat_inj.
Qed.

(** X17: the file names of the items of a carousel are pairwise distinct,
    also when several items have the same name in their URLs: the
    position that is put in front of the last dot tells them apart. *)
Theorem carousel_filenames_distinct (doc : Document) :
  List.NoDup (map mo_filename (detectCarousel doc)).
Proof.
  unfold detectCarousel. destruct (article doc) as [art|]; [|constructor].
  pose proof (carousel_limited_filenames doc art) as Hdots.
  set (limited := carousel_limited doc art) in *.
  apply NoDup_ListNoDup, NoDup_alt. intros i j filename Hi Hj.
  change (map mo_filename ?l) with (mo_filename <$> l) in Hi, Hj.
  rewrite list_lookup_fmap, list_lookup_imap in Hi, Hj.
  destruct (limited !! i) as [mi|] eqn:Hmi; [|discriminate].
  destruct (limited !! j) as [mj|] eqn:Hmj; [|discriminate].
  cbn [fmap option_fmap option_map mo_filename number_item] in Hi, Hj.
  injection Hi as Hi. injection Hj as Hj.
  destruct (Nat.eq_dec (List.length limited) 1%nat) as [Hone|Hmany].
  { apply lookup_lt_Some in Hmi, Hmj. lia. }
  rewrite List.Forall_forall in Hdots.
  assert (Hdi : includes (mo_filename mi) "." = true).
  { apply Hdots. apply list_elem_of_In. eapply list_elem_of_lookup_2, Hmi. }
  assert (Hdj : includes (mo_filename mj) "." = true).
  { apply Hdots. apply list_elem_of_In. eapply list_elem_of_lookup_2, Hmj. }
  destruct (addPositionToFilename_dot (mo_filename mi) (i + 1)
              (List.length limited) Hdi Hmany) as (ni & ei & _ & Hei & Hfi).
  destruct (addPositionToFilename_dot (mo_filename mj) (j + 1)
              (List.length limited) Hdj Hmany) as (nj & ej & _ & Hej & Hfj).
  rewrite Hfi in Hi. rewrite Hfj in Hj.
  assert (Hp : (i + 1 = j + 1)%nat).
  { eapply (numbered_filename_position ni nj ei ej); [exact Hei|exact Hej|].
    congruence. }
  lia.
Qed.

End InstagramDetectorFacts.

Section DetectionExamples.
Import JsString MediaExtractor DomAnalyzer Reference DomReference.

Lemma example_location_is_http : http_location example_location.
Proof.
  unfold http_location. simpl. split; [right; reflexivity|split; reflexivity].
Defined.

(** Witness of X7: an image whose srcset holds a path of the site. *)
Lemma extracted_url_is_http_witness :
  is_http "https://example.com/p/one.jpg" = true
  /\ makeAbsoluteUrl example_location "https://example.com/p/one.jpg"
     = "https://example.com/p/one.jpg"
  /\ isValidMediaUrl "https://example.com/p/one.jpg"
     = (JsString.length "https://example.com/p/one.jpg" <=? 2048).
Proof.
  exact (extracted_url_is_http example_location
           (example_img (Some "/p/one.jpg 1080w") "" 1080 1080 (rect_at 0 0 600 600))
           "https://example.com/p/one.jpg"
           example_location_is_http (or_introl eq_refl)).
Defined.

(** Witness of X9: the name of a photo is the last segment of its path. *)
Lemma extractFilenameFromUrl_shape_witness :
  extractFilenameFromUrl example_carousel example_stamp
    "https://cdn.example.com/p/two.jpg" = "two.jpg"
  /\ includes (extractFilenameFromUrl example_carousel example_stamp
                 "https://cdn.example.com/p/two.jpg") "." = true.
Proof.
  pose proof (extractFilenameFromUrl_shape example_carousel example_stamp
                "https://cdn.example.com/p/two.jpg") as H.
  cbv zeta in H. destruct H as (_ & Hdot & _); [discriminate|].
  split; [reflexivity | exact Hdot].
Defined.

(** Witness of X12: a style with the address in single quotes. *)
Lemma extractBackgroundImageUrl_round_trip_witness :
  extractBackgroundImageUrl
    (example_div "hero" "url('https://cdn.example.com/hero.jpg')")
  = Some "https://cdn.example.com/hero.jpg".
Proof.
  refine (proj1 (extractBackgroundImageUrl_round_trip
                   (example_div "hero" "url('https://cdn.example.com/hero.jpg')")
                   "https://cdn.example.com/hero.jpg" _ eq_refl)
                "'"%char "'"%char "" eq_refl eq_refl eq_refl).
  discriminate.
Defined.

(** Witness of X13: the large photo of a page outside Instagram. *)
Lemma generic_hero_comes_from_filtered_element_witness :
  exists m,
    GenericDetector.detectHeroMedia generic_page = [m]
    /\ mo_url m = "https://example.com/images/hero.jpg"
    /\ isValidMediaUrl (mo_url m) = true.
Proof.
  destruct (GenericDetector.detectHeroMedia generic_page) as [|m l] eqn:Hrun;
    [discriminate Hrun|].
  assert (Hin : In m (GenericDetector.detectHeroMedia generic_page))
    by (rewrite Hrun; now left).
  destruct (generic_hero_comes_from_filtered_element generic_page m Hin)
    as (Hall & _ & _ & Hvalid & _).
  exists m. split; [now rewrite <- Hrun|]. split; [|exact Hvalid].
  vm_compute in Hrun. now injection Hrun as <- _.
Defined.

(** Witness of X14: a page with nothing but a small button. *)
Lemma generic_nothing_without_candidate_witness :
  GenericDetector.detectHeroMedia bare_page = [].
Proof.
  apply generic_nothing_without_candidate.
  intros element [<-|[]]. right. left. reflexivity.
Defined.

(** Witness of X16: the post with a single photo. *)
Lemma single_post_urls_witness :
  map mo_url (InstagramDetector.detectImage single_item_carousel)
  = take 1 (image_urls single_item_carousel
              [ example_img (Some "https://cdn.example.com/p/one.jpg 1080w")
                  "https://cdn.example.com/p/one.jpg" 1080 1080
                  (rect_at 400 100 600 600) ]).
Proof.
  exact (proj1 (single_post_urls single_item_carousel _ eq_refl)).
Defined.

End DetectionExamples.
